(** * Symbol interception for the pensieve memory profiler

    A shallow embedding of [hooks.cpp] (the symbol finder, the hook registry
    and the intercept trampolines) and of [elf_shenanigans.cpp] (the symbol
    patcher and the global patch driver), with the properties of the
    interception layer proved over it.

    Conventions.  Pointers, [size_t], [Addr] and [int] values are integers in
    [Z]; the null pointer is [0]; address arithmetic wraps at [2^64].  The
    event sink ([tracking_api]) and the real libc entry points are external:
    a call to either is recorded as an event in a trace, and the value a real
    function returns is supplied by an oracle the development quantifies
    over. *)

From Stdlib Require Import ZArith List Bool Lia.
From stdpp Require Import base gmap strings list.

#[local] Set Warnings "-clear-no-such-hyp".
Local Open Scope Z_scope.

(** The width of [size_t], [Addr] and of a data pointer. *)
Definition word_modulus : Z := 2 ^ 64.

(** [strstr haystack needle]: the suffix of [haystack] that starts at the
    first occurrence of [needle], [None] for a null result. *)
Fixpoint strstr (haystack needle : string) : option string :=
  if String.prefix needle haystack then Some haystack
  else match haystack with
       | EmptyString => None
       | String _ rest => strstr rest needle
       end.

(** * The platform: [<link.h>] *)
Module link.

(** A program header, reduced to the two fields the callbacks read. *)
Record Phdr : Set := { p_type : Z; p_vaddr : Z }.

Definition PT_DYNAMIC : Z := 2.

(** [dlpi_phnum] is the length of [dlpi_phdr]. *)
Record dl_phdr_info : Set :=
  { dlpi_addr : Z; dlpi_name : string; dlpi_phdr : list Phdr }.

(** [dl_iterate_phdr callback data] over the objects [loaded] in the process,
    in load order: the callback runs on each until one returns non-zero, and
    the value of the last run is returned.  [D] is everything the callback
    can read and change through [data] and through its statics. *)
Fixpoint dl_iterate_phdr {D : Type} (callback : dl_phdr_info -> D -> Z * D)
    (loaded : list dl_phdr_info) (data : D) : Z * D :=
  match loaded with
  | [] => (0, data)
  | info :: rest =>
      let (rc, data') := callback info data in
      if rc =? 0 then dl_iterate_phdr callback rest data' else (rc, data')
  end.

End link.

(** * The views of [elf_utils.h]

    The header is not part of the sources at hand.  Its views over a module's
    dynamic section are kept abstract: what a view yields for a given load
    base and dynamic-section address is a parameter of the code that uses
    it.  The patcher stores into relocation slots, never into this
    metadata, so a view yields the same entries throughout a sweep. *)
Module elf_utils.

(** A relocation entry, reduced to the fields the patcher reads; they are
    common to [Elf_Rel] and [Elf_Rela]. *)
Record Relocation : Set := { r_offset : Z; r_info : Z }.

(** [SymbolTable(base, dyn)]: index to name, and name to address ([0] when
    the module does not define the name). *)
Record SymbolTable : Type :=
  { getSymbolNameByIndex : Z -> string; getSymbolAddress : string -> Z }.

(** What the dynamic sections of the process hold. *)
Record Views : Type :=
  { new_SymbolTable : Z -> Z -> SymbolTable;  (* base, dyn *)
    RelTable : Z -> list Relocation;
    RelaTable : Z -> list Relocation;
    JmprelTable : Z -> list Relocation }.

End elf_utils.

(** * namespace pensieve::hooks *)
Module hooks.

Inductive Allocator : Set :=
| CALLOC | FREE | MALLOC | MEMALIGN | MMAP | MUNMAP
| POSIX_MEMALIGN | PVALLOC | REALLOC | VALLOC.

Inductive AllocatorKind : Set :=
| SIMPLE_ALLOCATOR | SIMPLE_DEALLOCATOR | RANGED_ALLOCATOR | RANGED_DEALLOCATOR.

Definition allocatorKind (allocator : Allocator) : AllocatorKind :=
  match allocator with
  | CALLOC | MALLOC | MEMALIGN | POSIX_MEMALIGN | PVALLOC | REALLOC | VALLOC =>
      SIMPLE_ALLOCATOR
  | FREE => SIMPLE_DEALLOCATOR
  | MMAP => RANGED_ALLOCATOR
  | MUNMAP => RANGED_DEALLOCATOR
  end.

(** The fourteen [SymbolHook] globals of the registry. *)
Inductive SymbolHook : Set :=
| malloc | free | calloc | realloc | posix_memalign | memalign | valloc
| pvalloc | dlopen | dlclose | mmap | mmap64 | munmap | PyGILState_Ensure.

Definition d_symbol (hook : SymbolHook) : string :=
  match hook with
  | malloc => "malloc"
  | free => "free"
  | calloc => "calloc"
  | realloc => "realloc"
  | posix_memalign => "posix_memalign"
  | memalign => "memalign"
  | valloc => "valloc"
  | pvalloc => "pvalloc"
  | dlopen => "dlopen"
  | dlclose => "dlclose"
  | mmap => "mmap"
  | mmap64 => "mmap64"
  | munmap => "munmap"
  | PyGILState_Ensure => "PyGILState_Ensure"
  end.

#[global] Instance SymbolHook_eq_dec : EqDecision SymbolHook.
Proof. solve_decision. Defined.

#[global] Instance Allocator_eq_dec : EqDecision Allocator.
Proof. solve_decision. Defined.

(** [symbol_query] of [hooks.h]: a counter of enumerated maps, the name
    looked for and the address found (null until then). *)
Record symbol_query : Set :=
  { maps_visited : nat; symbol_name : string; address : Z }.

Section SymbolFinder.

Variable views : elf_utils.Views.

(** The loop of [phdr_symfind_callback] over the program headers left to
    look at: the address of the name in the first [PT_DYNAMIC] segment whose
    symbol table resolves it, [0] when the loop runs to its end. *)
Fixpoint symfind_phdrs (dlpi_addr : Z) (name : string) (phdrs : list link.Phdr) : Z :=
  match phdrs with
  | [] => 0
  | phdr :: rest =>
      if negb (link.p_type phdr =? link.PT_DYNAMIC) then symfind_phdrs dlpi_addr name rest
      else
        let dyn := (link.p_vaddr phdr + dlpi_addr) mod word_modulus in
        let symbols := elf_utils.new_SymbolTable views dlpi_addr dyn in
        let offset := elf_utils.getSymbolAddress symbols name in
        if offset =? 0 then symfind_phdrs dlpi_addr name rest else offset
  end.

Definition phdr_symfind_callback (info : link.dl_phdr_info) (result : symbol_query)
    : Z * symbol_query :=
  let visited_before := maps_visited result in
  let result :=
    {| maps_visited := S visited_before;
       symbol_name := symbol_name result;
       address := address result |} in
  if negb (Nat.eqb visited_before 0)
     && match link.dlpi_name info with EmptyString => true | _ => false end
  then (0, result)
  else if bool_decide (is_Some (strstr (link.dlpi_name info) "linux-vdso.so.1"))
  then (0, result)
  else
    let offset :=
      symfind_phdrs (link.dlpi_addr info) (symbol_name result) (link.dlpi_phdr info) in
    if offset =? 0 then (0, result)
    else (1, {| maps_visited := maps_visited result;
                symbol_name := symbol_name result;
                address := offset |}).

(** Modelled from the spec: the driver of the callback is in [hooks.h], which
    is not part of the sources at hand.  [findSymbol(name)] enumerates every
    currently loaded module via the platform's module-enumeration primitive,
    here with a fresh query (no map visited, null address). *)
Definition findSymbol (loaded : list link.dl_phdr_info) (name : string)
    : Z * symbol_query :=
  link.dl_iterate_phdr phdr_symfind_callback loaded
    {| maps_visited := 0; symbol_name := name; address := 0 |}.

End SymbolFinder.

End hooks.

(** * namespace pensieve::intercept

    Each trampoline first asserts that its hook holds a pointer;
    [ensureAllHooksAreValid] settled that at start-up, and the embedding
    starts after the assertion. *)
Module intercept.

(** What a trampoline does that the outside can observe, in order. *)
Inductive Event : Set :=
| Original (hook : hooks.SymbolHook) (args : list Z)
    (** the real function, reached through the hook's captured pointer *)
| trackAllocation (ptr size : Z) (allocator : hooks.Allocator)
| trackDeallocation (ptr size : Z) (allocator : hooks.Allocator)
| invalidate_module_cache
| flushCache
| install_trace_function.

#[global] Instance Event_eq_dec : EqDecision Event.
Proof. solve_decision. Defined.

(** A trampoline is a computation that extends the trace. *)
Definition Tracked (A : Type) : Type := list Event -> A * list Event.

#[global] Instance Tracked_ret : MRet Tracked :=
  fun A a tr => (a, tr).
#[global] Instance Tracked_bind : MBind Tracked :=
  fun A B k m tr => let (a, tr') := m tr in k a tr'.

Definition emit (e : Event) : Tracked unit := fun tr => (tt, tr ++ [e]).

Section Trampolines.

(** [original hook args]: what the real function behind [hook] returns
    for [args] (for [free], which returns nothing, the value is unused). *)
Variable original : hooks.SymbolHook -> list Z -> Z.
(** What the real [posix_memalign] leaves in [*memptr]. *)
Variable memptr_after : list Z -> Z.

Definition call (hook : hooks.SymbolHook) (args : list Z) : Tracked Z :=
  emit (Original hook args);; mret (original hook args).

Definition mmap (addr length prot flags fd offset : Z) : Tracked Z :=
  ptr ← call hooks.mmap [addr; length; prot; flags; fd; offset];
  emit (trackAllocation ptr length hooks.MMAP);;
  mret ptr.

Definition mmap64 (addr length prot flags fd offset : Z) : Tracked Z :=
  ptr ← call hooks.mmap64 [addr; length; prot; flags; fd; offset];
  emit (trackAllocation ptr length hooks.MMAP);;
  mret ptr.

Definition munmap (addr length : Z) : Tracked Z :=
  emit (trackDeallocation addr length hooks.MUNMAP);;
  call hooks.munmap [addr; length].

Definition malloc (size : Z) : Tracked Z :=
  ptr ← call hooks.malloc [size];
  emit (trackAllocation ptr size hooks.MALLOC);;
  mret ptr.

Definition free (ptr : Z) : Tracked unit :=
  emit (trackDeallocation ptr 0 hooks.FREE);;
  call hooks.free [ptr];;
  mret tt.

Definition realloc (ptr size : Z) : Tracked Z :=
  ret ← call hooks.realloc [ptr; size];
  (if ret =? 0 then mret tt
   else emit (trackDeallocation ptr 0 hooks.FREE);;
        emit (trackAllocation ret size hooks.REALLOC));;
  mret ret.

Definition calloc (num size : Z) : Tracked Z :=
  ret ← call hooks.calloc [num; size];
  (if ret =? 0 then mret tt
   else emit (trackAllocation ret ((num * size) mod word_modulus) hooks.CALLOC));;
  mret ret.

(** [memptr] is the address of the out-parameter; the trampoline reads
    [*memptr] after the real call. *)
Definition posix_memalign (memptr alignment size : Z) : Tracked Z :=
  ret ← call hooks.posix_memalign [memptr; alignment; size];
  (if ret =? 0
   then emit (trackAllocation (memptr_after [memptr; alignment; size]) size
                hooks.POSIX_MEMALIGN)
   else mret tt);;
  mret ret.

Definition memalign (alignment size : Z) : Tracked Z :=
  ret ← call hooks.memalign [alignment; size];
  (if ret =? 0 then mret tt
   else emit (trackAllocation ret size hooks.MEMALIGN));;
  mret ret.

Definition valloc (size : Z) : Tracked Z :=
  ret ← call hooks.valloc [size];
  (if ret =? 0 then mret tt
   else emit (trackAllocation ret size hooks.VALLOC));;
  mret ret.

Definition pvalloc (size : Z) : Tracked Z :=
  ret ← call hooks.pvalloc [size];
  (if ret =? 0 then mret tt
   else emit (trackAllocation ret size hooks.PVALLOC));;
  mret ret.

(** [filename] is the address of the path string. *)
Definition dlopen (filename flag : Z) : Tracked Z :=
  ret ← call hooks.dlopen [filename; flag];
  (if ret =? 0 then mret tt else emit invalidate_module_cache);;
  mret ret.

Definition dlclose (handle : Z) : Tracked Z :=
  ret ← call hooks.dlclose [handle];
  emit flushCache;;
  (if ret =? 0 then emit invalidate_module_cache else mret tt);;
  mret ret.

Definition PyGILState_Ensure : Tracked Z :=
  ret ← call hooks.PyGILState_Ensure [];
  emit install_trace_function;;
  mret ret.

End Trampolines.

End intercept.


(** * namespace pensieve::elf *)
Module elf.

(** [ELF64_R_SYM], the choice of the macro on x86_64 and aarch64. *)
Definition ELF_R_SYM (info : Z) : Z := Z.shiftr info 32.

Inductive Severity : Set := DEBUG | INFO | WARNING.

(** What the patcher does to the process, in order: the permission request,
    the log lines, and the pointer-sized stores into relocation slots. *)
Inductive Effect : Set :=
| mprotect_call (memory_page len prot : Z)
| LOG (level : Severity) (message : string)
| store (addr value : Z).

#[global] Instance Severity_eq_dec : EqDecision Severity.
Proof. solve_decision. Defined.

#[global] Instance Effect_eq_dec : EqDecision Effect.
Proof. solve_decision. Defined.

(** The process as the patcher sees it.  [memory] gives the pointer held at
    each slot address (relocation slots are pointer-sized and
    pointer-aligned, so a store changes the one slot it names); [patched] is
    the function-local static of [phdrs_callback]; [effects] is the history. *)
Record Process : Type :=
  { memory : Z -> Z; patched : gset string; effects : list Effect }.

Definition write (addr value : Z) (mem : Z -> Z) : Z -> Z :=
  fun a => if a =? addr then value else mem a.

Definition perform (e : Effect) (st : Process) : Process :=
  {| memory := match e with
               | store addr value => write addr value (memory st)
               | _ => memory st
               end;
     patched := patched st;
     effects := effects st ++ [e] |}.

Definition PROT_READ : Z := 1.
Definition PROT_WRITE : Z := 2.

(** The registry in the order of the [TRY_HOOK] chain. *)
Definition TRY_HOOK_chain : list hooks.SymbolHook :=
  [hooks.malloc; hooks.free; hooks.calloc; hooks.realloc; hooks.posix_memalign;
   hooks.memalign; hooks.valloc; hooks.pvalloc; hooks.dlopen; hooks.dlclose;
   hooks.mmap; hooks.mmap64; hooks.munmap; hooks.PyGILState_Ensure].

(** The first hook of the chain whose [strcmp] with [symname] is [0]. *)
Definition TRY_HOOK (symname : string) : option hooks.SymbolHook :=
  List.find (fun hook => String.eqb (hooks.d_symbol hook) symname) TRY_HOOK_chain.

Section Patcher.

(** [getpagesize()]. *)
Variable page_len : Z.
(** The return value of [mprotect(memory_page, len, prot)]. *)
Variable mprotect : Z -> Z -> Z -> Z.
(** The pointer each hook captured at start-up, and the address of its
    trampoline [&intercept::hookname]. *)
Variable d_original : hooks.SymbolHook -> Z.
Variable intercept : hooks.SymbolHook -> Z.
Variable views : elf_utils.Views.

Definition unprotect_page (addr : Z) (st : Process) : Z * Process :=
  let memory_page := Z.land addr (Z.lnot (page_len - 1)) in
  let prot := Z.lor PROT_READ PROT_WRITE in
  (mprotect memory_page page_len prot,
   perform (mprotect_call memory_page page_len prot) st).

Definition patch_symbol (hook : hooks.SymbolHook) (intercept_fn : Z)
    (symname : string) (addr : Z) (restore_original : bool) (st : Process) : Process :=
  let (rc, st) := unprotect_page addr st in
  let st :=
    if rc <? 0
    then perform (LOG WARNING ("Could not prepare the memory page for symbol "
                               +:+ symname +:+ " for patching")) st
    else st in
  let st :=
    perform (store addr (if restore_original then d_original hook else intercept_fn)) st in
  perform (LOG DEBUG (symname +:+ " intercepted!")) st.

(** One turn of the loop of [overwrite_elf_table]. *)
Definition overwrite_relocation (symbols : elf_utils.SymbolTable) (base_addr : Z)
    (restore_original : bool) (st : Process) (relocation : elf_utils.Relocation)
    : Process :=
  let index := ELF_R_SYM (elf_utils.r_info relocation) in
  let symname := elf_utils.getSymbolNameByIndex symbols index in
  let symbol_addr := (elf_utils.r_offset relocation + base_addr) mod word_modulus in
  match TRY_HOOK symname with
  | Some hook => patch_symbol hook (intercept hook) symname symbol_addr restore_original st
  | None => st
  end.

Definition overwrite_elf_table (table : list elf_utils.Relocation)
    (symbols : elf_utils.SymbolTable) (base_addr : Z) (restore_original : bool)
    (st : Process) : Process :=
  fold_left (overwrite_relocation symbols base_addr restore_original) table st.

Definition patch_symbols (dyn_info_struct base : Z) (restore_original : bool)
    (st : Process) : Process :=
  let symbols := elf_utils.new_SymbolTable views base dyn_info_struct in
  let st := perform (LOG DEBUG "Patching symbols with RELS relocation type") st in
  let st := overwrite_elf_table (elf_utils.RelTable views dyn_info_struct)
              symbols base restore_original st in
  let st := perform (LOG DEBUG "Patching symbols with RELAS relocation type") st in
  let st := overwrite_elf_table (elf_utils.RelaTable views dyn_info_struct)
              symbols base restore_original st in
  let st := perform (LOG DEBUG "Patching symbols with JMPRELS relocation type") st in
  overwrite_elf_table (elf_utils.JmprelTable views dyn_info_struct)
    symbols base restore_original st.

(** One turn of the loop of [phdrs_callback] over the program headers. *)
Definition patch_phdr (dlpi_addr : Z) (restore_original : bool) (st : Process)
    (phdr : link.Phdr) : Process :=
  if negb (link.p_type phdr =? link.PT_DYNAMIC) then st
  else
    let dyn_info_struct := (link.p_vaddr phdr + dlpi_addr) mod word_modulus in
    patch_symbols dyn_info_struct dlpi_addr restore_original st.

Definition is_excluded (dlpi_name : string) : bool :=
  bool_decide (is_Some (strstr dlpi_name "/ld-linux"))
  || bool_decide (is_Some (strstr dlpi_name "linux-vdso.so.1")).

Definition set_patched (s : gset string) (st : Process) : Process :=
  {| memory := memory st; patched := s; effects := effects st |}.

(** [phdrs_callback] from the exclusion test on. *)
Definition scan_module (restore_original : bool) (info : link.dl_phdr_info)
    (st : Process) : Z * Process :=
  let name := link.dlpi_name info in
  if is_excluded name then (0, st)
  else
    let st := perform (LOG INFO ("Patching symbols for " +:+ name)) st in
    (0, fold_left (patch_phdr (link.dlpi_addr info) restore_original)
          (link.dlpi_phdr info) st).

(** [data] points to the [restore_original] flag of the sweep. *)
Definition phdrs_callback (restore_original : bool) (info : link.dl_phdr_info)
    (st : Process) : Z * Process :=
  let name := link.dlpi_name info in
  if restore_original then scan_module restore_original info (set_patched ∅ st)
  else if bool_decide (name ∈ patched st) then (0, st)
  else scan_module restore_original info (set_patched ({[name]} ∪ patched st) st).

(** The public API, over the objects [loaded] in the process. *)
Definition overwrite_symbols (loaded : list link.dl_phdr_info) (st : Process) : Process :=
  snd (link.dl_iterate_phdr (phdrs_callback false) loaded st).

Definition restore_symbols (loaded : list link.dl_phdr_info) (st : Process) : Process :=
  snd (link.dl_iterate_phdr (phdrs_callback true) loaded st).

End Patcher.

End elf.


(** * Vocabulary of the specification *)

(** A real [malloc] that is out of memory, and a real [mmap] that fails with
    [MAP_FAILED]. *)
Definition failing_original (hook : hooks.SymbolHook) (args : list Z) : Z :=
  match hook with
  | hooks.mmap | hooks.mmap64 => word_modulus - 1
  | _ => 0
  end.

(** The address and the hook of a relocation entry that the [TRY_HOOK] chain
    matches. *)
Definition relocation_slot (symbols : elf_utils.SymbolTable) (base_addr : Z)
    (relocation : elf_utils.Relocation) : option (Z * hooks.SymbolHook) :=
  match elf.TRY_HOOK (elf_utils.getSymbolNameByIndex symbols
                        (elf.ELF_R_SYM (elf_utils.r_info relocation))) with
  | Some hook => Some ((elf_utils.r_offset relocation + base_addr) mod word_modulus, hook)
  | None => None
  end.

(** The matched slots of a module in the order a scan meets them; none for a
    module the driver excludes. *)
Definition dyn_slots (views : elf_utils.Views) (dyn_info_struct base : Z)
    : list (Z * hooks.SymbolHook) :=
  let symbols := elf_utils.new_SymbolTable views base dyn_info_struct in
  omap (relocation_slot symbols base) (elf_utils.RelTable views dyn_info_struct)
  ++ omap (relocation_slot symbols base) (elf_utils.RelaTable views dyn_info_struct)
  ++ omap (relocation_slot symbols base) (elf_utils.JmprelTable views dyn_info_struct).

Definition phdr_slots (views : elf_utils.Views) (dlpi_addr : Z) (phdr : link.Phdr)
    : list (Z * hooks.SymbolHook) :=
  if negb (link.p_type phdr =? link.PT_DYNAMIC) then []
  else dyn_slots views ((link.p_vaddr phdr + dlpi_addr) mod word_modulus) dlpi_addr.

Definition module_slots (views : elf_utils.Views) (info : link.dl_phdr_info)
    : list (Z * hooks.SymbolHook) :=
  if elf.is_excluded (link.dlpi_name info) then []
  else flat_map (phdr_slots views (link.dlpi_addr info)) (link.dlpi_phdr info).

(** The memory after storing into each slot of a list, first to last. *)
Definition apply_patches (value : hooks.SymbolHook -> Z)
    (slots : list (Z * hooks.SymbolHook)) (mem : Z -> Z) : Z -> Z :=
  fold_left (fun m slot => elf.write slot.1 (value slot.2) m) slots mem.

(** The modules an overwrite sweep scans or excludes, given the names
    already in the patched set: the others are skipped. *)
Fixpoint overwrite_visits (loaded : list link.dl_phdr_info) (s : gset string)
    : list link.dl_phdr_info :=
  match loaded with
  | [] => []
  | info :: rest =>
      if bool_decide (link.dlpi_name info ∈ s) then overwrite_visits rest s
      else info :: overwrite_visits rest ({[link.dlpi_name info]} ∪ s)
  end.

(** How many times the log says that a module was scanned. *)
Definition patch_count (name : string) (effects : list elf.Effect) : nat :=
  length (filter (fun e => e = elf.LOG elf.INFO ("Patching symbols for " +:+ name)) effects).

(** The process at the start of an epoch: nothing patched, nothing done. *)
Definition epoch_start (mem : Z -> Z) : elf.Process :=
  {| elf.memory := mem; elf.patched := ∅; elf.effects := [] |}.

(** An effect that is not a store and not an [INFO] line. *)
Definition silent (e : elf.Effect) : bool :=
  match e with
  | elf.store _ _ => false
  | elf.LOG elf.INFO _ => false
  | _ => true
  end.

Section PatchVocabulary.

Variable page_len : Z.
Variable mprotect : Z -> Z -> Z -> Z.
Variable d_original : hooks.SymbolHook -> Z.
Variable intercept : hooks.SymbolHook -> Z.
Variable views : elf_utils.Views.

(** The pointer a sweep stores for a hook. *)
Definition patch_value (restore_original : bool) (hook : hooks.SymbolHook) : Z :=
  if restore_original then d_original hook else intercept hook.

(** [st'] continues [st]: same patched set, memory changed by the stores of
    [slots] alone, and a history extended by the stores of [slots] among
    effects that are neither stores nor [INFO] lines. *)
Definition extends (restore_original : bool) (slots : list (Z * hooks.SymbolHook))
    (st st' : elf.Process) : Prop :=
  elf.patched st' = elf.patched st
  /\ elf.memory st' = apply_patches (patch_value restore_original) slots (elf.memory st)
  /\ exists es, elf.effects st' = elf.effects st ++ es
       /\ filter (fun e => silent e = false) es
          = map (fun slot => elf.store slot.1 (patch_value restore_original slot.2)) slots.

(** Either sweep of the public API. *)
Definition sweep (restore_original : bool)
    : list link.dl_phdr_info -> elf.Process -> elf.Process :=
  if restore_original
  then elf.restore_symbols page_len mprotect d_original intercept views
  else elf.overwrite_symbols page_len mprotect d_original intercept views.

End PatchVocabulary.

(** In an epoch, the log counts one scan for each name in the patched set
    that is not excluded, and none for any other name. *)
Definition counted (st : elf.Process) : Prop :=
  forall name,
    patch_count name (elf.effects st)
    = if bool_decide (name ∈ elf.patched st) && negb (elf.is_excluded name)
      then 1%nat else 0%nat.

(** Two processes that differ at most in their patched sets. *)
Definition same_world (st1 st2 : elf.Process) : Prop :=
  elf.memory st1 = elf.memory st2 /\ elf.effects st1 = elf.effects st2.

(** Two processes whose patched sets hold the same names, excluded names
    apart. *)
Definition agree_outside_excluded (st1 st2 : elf.Process) : Prop :=
  forall name,
    elf.is_excluded name = false ->
    name ∈ elf.patched st1 <-> name ∈ elf.patched st2.

(** The guards of [phdr_symfind_callback]: the module enumerated at
    [position] is left without a look at its symbols when its path is empty
    and it is not the first map, or when it is the vdso. *)
Definition symfind_skips (position : nat) (info : link.dl_phdr_info) : bool :=
  (negb (Nat.eqb position 0) && bool_decide (link.dlpi_name info = ""))
  || bool_decide (is_Some (strstr (link.dlpi_name info) "linux-vdso.so.1")).

(** The query after one more map was counted. *)
Definition counted_map (q : hooks.symbol_query) : hooks.symbol_query :=
  {| hooks.maps_visited := S (hooks.maps_visited q);
     hooks.symbol_name := hooks.symbol_name q;
     hooks.address := hooks.address q |}.

Section FinderVocabulary.

Variable views : elf_utils.Views.

(** What the loop over the program headers of a module finds for a name. *)
Definition resolve (info : link.dl_phdr_info) (name : string) : Z :=
  hooks.symfind_phdrs views (link.dlpi_addr info) name (link.dlpi_phdr info).

(** The position and the address of the first module, from [position] on,
    that is visited and resolves [name]. *)
Fixpoint first_match (name : string) (position : nat) (loaded : list link.dl_phdr_info)
    : option (nat * Z) :=
  match loaded with
  | [] => None
  | info :: rest =>
      if negb (symfind_skips position info) && negb (resolve info name =? 0)
      then Some (position, resolve info name)
      else first_match name (S position) rest
  end.

End FinderVocabulary.

(** ** The search, said without the code *)




(** ** Views of a trampoline's trace *)

Definition is_real_call (e : intercept.Event) : bool :=
  match e with intercept.Original _ _ => true | _ => false end.

(** The calls that reached the real functions, in order. *)
Definition real_calls (tr : list intercept.Event) : list intercept.Event :=
  filter (fun e => is_real_call e = true) tr.

(** What the sink was told about memory, reduced to the direction of each
    notice ([true] for an allocation) and to the kind the sink derives from
    its allocator with [allocatorKind]. *)
Definition sink_notice (e : intercept.Event) : option (bool * hooks.AllocatorKind) :=
  match e with
  | intercept.trackAllocation _ _ allocator => Some (true, hooks.allocatorKind allocator)
  | intercept.trackDeallocation _ _ allocator => Some (false, hooks.allocatorKind allocator)
  | _ => None
  end.

Definition sink_notices (tr : list intercept.Event) : list (bool * hooks.AllocatorKind) :=
  omap sink_notice tr.

(** ** Views of the patcher's history *)

(** The stores of a history, in order. *)
Definition stores (es : list elf.Effect) : list elf.Effect :=
  filter (fun e => match e with elf.store _ _ => true | _ => false end = true) es.

(** The permission requests of a history, in order, as (page, length,
    protection). *)
Definition unprotected (es : list elf.Effect) : list (Z * Z * Z) :=
  omap (fun e => match e with
                 | elf.mprotect_call memory_page len prot => Some (memory_page, len, prot)
                 | _ => None
                 end) es.

(** For each store of a history, in order, the request that makes the page
    of its slot readable and writable. *)
Definition stored_pages (page_len : Z) (es : list elf.Effect) : list (Z * Z * Z) :=
  omap (fun e => match e with
                 | elf.store addr _ =>
                     Some (Z.land addr (Z.lnot (page_len - 1)), page_len,
                           Z.lor elf.PROT_READ elf.PROT_WRITE)
                 | _ => None
                 end) es.

(** Reading a history with the request that waits for its store: a request
    may come only when none is waiting, a store only when the waiting request
    is the one for the page of its slot, which the store uses up, and a log
    line changes nothing.  The result is the request left waiting at the
    end, or [None] when the history breaks the rule. *)
Fixpoint request_then_store (page_len : Z) (waiting : option (Z * Z * Z))
    (es : list elf.Effect) : option (option (Z * Z * Z)) :=
  match es with
  | [] => Some waiting
  | elf.mprotect_call memory_page len prot :: es =>
      match waiting with
      | None => request_then_store page_len (Some (memory_page, len, prot)) es
      | Some _ => None
      end
  | elf.store addr _ :: es =>
      if bool_decide (waiting = Some (Z.land addr (Z.lnot (page_len - 1)), page_len,
                                      Z.lor elf.PROT_READ elf.PROT_WRITE))
      then request_then_store page_len None es
      else None
  | elf.LOG _ _ :: es => request_then_store page_len waiting es
  end.

(** The history from [st] to [st'] asks, for each of its stores and in the
    same order, that the page of the slot be made readable and writable, and
    asks for nothing else; and in it every store comes after its request,
    with no other request and no other store in between. *)
Definition requests_match_stores (page_len : Z) (st st' : elf.Process) : Prop :=
  exists es, elf.effects st' = elf.effects st ++ es
             /\ unprotected es = stored_pages page_len es
             /\ request_then_store page_len None es = Some None.

(** * A concrete process *)

(** A library whose procedure linkage table has one entry, for [malloc],
    and the dynamic linker. *)
Definition libfoo : link.dl_phdr_info :=
  {| link.dlpi_addr := 0x400000;
     link.dlpi_name := "/usr/lib/libfoo.so";
     link.dlpi_phdr := [ {| link.p_type := 1; link.p_vaddr := 0 |};
                         {| link.p_type := link.PT_DYNAMIC; link.p_vaddr := 0x3e00 |} ] |}.

Definition ld_linux : link.dl_phdr_info :=
  {| link.dlpi_addr := 0x7ffff7fc3000;
     link.dlpi_name := "/lib64/ld-linux-x86-64.so.2";
     link.dlpi_phdr := [ {| link.p_type := link.PT_DYNAMIC; link.p_vaddr := 0x2e00 |} ] |}.

(** The main program, reported first and with an empty path, which defines
    [malloc] itself; and a module that has no dynamic segment. *)
Definition main_program : link.dl_phdr_info :=
  {| link.dlpi_addr := 0x555555554000;
     link.dlpi_name := "";
     link.dlpi_phdr := [ {| link.p_type := link.PT_DYNAMIC; link.p_vaddr := 0x2d00 |} ] |}.

Definition static_blob : link.dl_phdr_info :=
  {| link.dlpi_addr := 0x7ffff7000000;
     link.dlpi_name := "/usr/lib/blob";
     link.dlpi_phdr := [ {| link.p_type := 1; link.p_vaddr := 0 |};
                         {| link.p_type := 6; link.p_vaddr := 64 |} ] |}.

Definition example_views : elf_utils.Views :=
  {| elf_utils.new_SymbolTable := fun base dyn =>
       {| elf_utils.getSymbolNameByIndex := fun index =>
            if index =? 1 then "malloc" else "";
          elf_utils.getSymbolAddress := fun name =>
            if String.eqb name "malloc" then base + 0x1100 else 0 |};
     elf_utils.RelTable := fun dyn => [];
     elf_utils.RelaTable := fun dyn => [];
     elf_utils.JmprelTable := fun dyn =>
       [ {| elf_utils.r_offset := 0x4018; elf_utils.r_info := 1 * 2 ^ 32 + 7 |} ] |}.

Definition example_d_original (hook : hooks.SymbolHook) : Z := 0x7ffff7e5e0e0.
Definition example_intercept (hook : hooks.SymbolHook) : Z := 0x7ffff7a01000.
Definition example_mprotect (memory_page len prot : Z) : Z := 0.

(** Before patching, with lazy binding, the slot of [malloc] in [libfoo]
    points back into the library's own linkage stub. *)
Definition lazy_memory (a : Z) : Z := if a =? 0x404018 then 0x401036 else 0.

Definition example_overwrite : list link.dl_phdr_info -> elf.Process -> elf.Process :=
  elf.overwrite_symbols 4096 example_mprotect example_d_original example_intercept
    example_views.

Definition example_restore : list link.dl_phdr_info -> elf.Process -> elf.Process :=
  elf.restore_symbols 4096 example_mprotect example_d_original example_intercept
    example_views.


(** * The trampolines *)

(** Running a trampoline from a given history. *)
Lemma emit_run (e : intercept.Event) (tr : list intercept.Event) :
  intercept.emit e tr = (tt, tr ++ [e]).
Proof. reflexivity. Qed.

Lemma call_run original hook args (tr : list intercept.Event) :
  intercept.call original hook args tr
  = (original hook args, tr ++ [intercept.Original hook args]).
Proof. reflexivity. Qed.

Ltac run_trampoline :=
  intros; cbv [intercept.malloc intercept.free intercept.calloc intercept.realloc
               intercept.posix_memalign intercept.memalign intercept.valloc
               intercept.pvalloc intercept.mmap intercept.mmap64 intercept.munmap
               intercept.dlopen intercept.dlclose intercept.call intercept.emit
               mbind mret intercept.Tracked_bind intercept.Tracked_ret];
  repeat match goal with |- context [?a =? 0] => destruct (a =? 0) end;
  cbn [fst snd]; rewrite <- ?app_assoc; reflexivity.

(** X4: the allocate trampolines that test the result of the real call: the real
    call comes first, and the sink hears of the allocation exactly when the
    result is a success. *)
Lemma guarded_allocators_notify_on_success original memptr_after tr :
  (forall num size,
      intercept.calloc original num size tr
      = (original hooks.calloc [num; size],
         tr ++ intercept.Original hooks.calloc [num; size]
            :: if original hooks.calloc [num; size] =? 0 then []
               else [intercept.trackAllocation (original hooks.calloc [num; size])
                       ((num * size) mod word_modulus) hooks.CALLOC]))
  /\ (forall alignment size,
      intercept.memalign original alignment size tr
      = (original hooks.memalign [alignment; size],
         tr ++ intercept.Original hooks.memalign [alignment; size]
            :: if original hooks.memalign [alignment; size] =? 0 then []
               else [intercept.trackAllocation (original hooks.memalign [alignment; size])
                       size hooks.MEMALIGN]))
  /\ (forall size,
      intercept.valloc original size tr
      = (original hooks.valloc [size],
         tr ++ intercept.Original hooks.valloc [size]
            :: if original hooks.valloc [size] =? 0 then []
               else [intercept.trackAllocation (original hooks.valloc [size])
                       size hooks.VALLOC]))
  /\ (forall size,
      intercept.pvalloc original size tr
      = (original hooks.pvalloc [size],
         tr ++ intercept.Original hooks.pvalloc [size]
            :: if original hooks.pvalloc [size] =? 0 then []
               else [intercept.trackAllocation (original hooks.pvalloc [size])
                       size hooks.PVALLOC]))
  /\ (forall memptr alignment size,
      intercept.posix_memalign original memptr_after memptr alignment size tr
      = (original hooks.posix_memalign [memptr; alignment; size],
         tr ++ intercept.Original hooks.posix_memalign [memptr; alignment; size]
            :: if original hooks.posix_memalign [memptr; alignment; size] =? 0
               then [intercept.trackAllocation (memptr_after [memptr; alignment; size])
                       size hooks.POSIX_MEMALIGN]
               else [])).
Proof. repeat split; run_trampoline. Qed.

(** The allocate trampolines that do not test the result: [malloc], [mmap]
    and [mmap64] notify the sink whatever the real call returned. *)
Lemma unguarded_allocators_always_notify original tr :
  (forall size,
      intercept.malloc original size tr
      = (original hooks.malloc [size],
         tr ++ [intercept.Original hooks.malloc [size];
                intercept.trackAllocation (original hooks.malloc [size]) size hooks.MALLOC]))
  /\ (forall addr length prot flags fd offset,
      intercept.mmap original addr length prot flags fd offset tr
      = (original hooks.mmap [addr; length; prot; flags; fd; offset],
         tr ++ [intercept.Original hooks.mmap [addr; length; prot; flags; fd; offset];
                intercept.trackAllocation
                  (original hooks.mmap [addr; length; prot; flags; fd; offset])
                  length hooks.MMAP]))
  /\ (forall addr length prot flags fd offset,
      intercept.mmap64 original addr length prot flags fd offset tr
      = (original hooks.mmap64 [addr; length; prot; flags; fd; offset],
         tr ++ [intercept.Original hooks.mmap64 [addr; length; prot; flags; fd; offset];
                intercept.trackAllocation
                  (original hooks.mmap64 [addr; length; prot; flags; fd; offset])
                  length hooks.MMAP])).
Proof. repeat split; run_trampoline. Qed.

(** C1, at the failing input: when the real [malloc] returns null for a
    request of 64 bytes, the [malloc] trampoline still sends the sink
    [trackAllocation(NULL, 64, MALLOC)]; the [mmap] trampoline likewise
    reports the [MAP_FAILED] result of a failed mapping of 4096 bytes.  The
    claim asks for no notification on a failed call. *)
Theorem malloc_failure_is_still_tracked :
  intercept.malloc failing_original 64 []
  = (0, [intercept.Original hooks.malloc [64];
         intercept.trackAllocation 0 64 hooks.MALLOC])
  /\ intercept.mmap failing_original 0 4096 3 34 (-1) 0 []
     = (word_modulus - 1,
        [intercept.Original hooks.mmap [0; 4096; 3; 34; -1; 0];
         intercept.trackAllocation (word_modulus - 1) 4096 hooks.MMAP]).
Proof. split; reflexivity. Qed.

(** C3: the [realloc] trampoline performs the real call; when the result is
    non-null the sink receives one deallocation of the old pointer with size
    0 and then one allocation of the returned pointer with the requested
    size, and nothing else; when the result is null the sink receives
    nothing. *)
Theorem realloc_is_free_then_allocate original ptr size tr :
  intercept.realloc original ptr size tr
  = (original hooks.realloc [ptr; size],
     tr ++ intercept.Original hooks.realloc [ptr; size]
        :: if original hooks.realloc [ptr; size] =? 0 then []
           else [intercept.trackDeallocation ptr 0 hooks.FREE;
                 intercept.trackAllocation (original hooks.realloc [ptr; size])
                   size hooks.REALLOC]).
Proof. run_trampoline. Qed.

(** C4: the deallocate trampolines notify the sink before the real call:
    [free] sends [trackDeallocation(ptr, 0, FREE)] and then calls the real
    [free]; [munmap] sends [trackDeallocation(addr, length, MUNMAP)] and then
    calls the real [munmap], whose result it returns. *)
Theorem deallocation_is_tracked_before_the_real_call original tr :
  (forall ptr,
      intercept.free original ptr tr
      = (tt, tr ++ [intercept.trackDeallocation ptr 0 hooks.FREE;
                    intercept.Original hooks.free [ptr]]))
  /\ (forall addr length,
      intercept.munmap original addr length tr
      = (original hooks.munmap [addr; length],
         tr ++ [intercept.trackDeallocation addr length hooks.MUNMAP;
                intercept.Original hooks.munmap [addr; length]])).
Proof. split; run_trampoline. Qed.

(** C7: the [dlclose] trampoline performs the real call first, then flushes
    the native trace cache whatever the result, and then invalidates the
    module cache exactly when the real call returned 0. *)
Theorem dlclose_flushes_then_invalidates_on_success original handle tr :
  intercept.dlclose original handle tr
  = (original hooks.dlclose [handle],
     tr ++ intercept.Original hooks.dlclose [handle]
        :: intercept.flushCache
        :: if original hooks.dlclose [handle] =? 0
           then [intercept.invalidate_module_cache] else []).
Proof. run_trampoline. Qed.


(** ** Further properties of the trampolines *)

Lemma real_calls_app tr1 tr2 : real_calls (tr1 ++ tr2) = real_calls tr1 ++ real_calls tr2.
Proof. apply filter_app. Qed.

Lemma sink_notices_app tr1 tr2 :
  sink_notices (tr1 ++ tr2) = sink_notices tr1 ++ sink_notices tr2.
Proof. apply omap_app. Qed.

Ltac trace_trampoline :=
  intros; cbv [intercept.malloc intercept.free intercept.calloc intercept.realloc
               intercept.posix_memalign intercept.memalign intercept.valloc
               intercept.pvalloc intercept.mmap intercept.mmap64 intercept.munmap
               intercept.dlopen intercept.dlclose intercept.PyGILState_Ensure
               intercept.call intercept.emit
               mbind mret intercept.Tracked_bind intercept.Tracked_ret];
  repeat match goal with |- context [?a =? 0] => destruct (a =? 0) end;
  cbn [fst snd]; rewrite ?real_calls_app, ?sink_notices_app, ?app_nil_r, <- ?app_assoc;
  try split; reflexivity.

(** X1: every trampoline is transparent to its caller: it hands back the value
    the real function returned, and it reaches the real function exactly
    once, with the arguments it was given. *)
Theorem trampolines_forward_to_the_real_function original memptr_after tr :
  (forall size,
      (intercept.malloc original size tr).1 = original hooks.malloc [size]
      /\ real_calls (intercept.malloc original size tr).2
         = real_calls tr ++ [intercept.Original hooks.malloc [size]])
  /\ (forall ptr,
      real_calls (intercept.free original ptr tr).2
      = real_calls tr ++ [intercept.Original hooks.free [ptr]])
  /\ (forall num size,
      (intercept.calloc original num size tr).1 = original hooks.calloc [num; size]
      /\ real_calls (intercept.calloc original num size tr).2
         = real_calls tr ++ [intercept.Original hooks.calloc [num; size]])
  /\ (forall ptr size,
      (intercept.realloc original ptr size tr).1 = original hooks.realloc [ptr; size]
      /\ real_calls (intercept.realloc original ptr size tr).2
         = real_calls tr ++ [intercept.Original hooks.realloc [ptr; size]])
  /\ (forall memptr alignment size,
      (intercept.posix_memalign original memptr_after memptr alignment size tr).1
      = original hooks.posix_memalign [memptr; alignment; size]
      /\ real_calls (intercept.posix_memalign original memptr_after memptr alignment size tr).2
         = real_calls tr ++ [intercept.Original hooks.posix_memalign [memptr; alignment; size]])
  /\ (forall alignment size,
      (intercept.memalign original alignment size tr).1
      = original hooks.memalign [alignment; size]
      /\ real_calls (intercept.memalign original alignment size tr).2
         = real_calls tr ++ [intercept.Original hooks.memalign [alignment; size]])
  /\ (forall size,
      (intercept.valloc original size tr).1 = original hooks.valloc [size]
      /\ real_calls (intercept.valloc original size tr).2
         = real_calls tr ++ [intercept.Original hooks.valloc [size]])
  /\ (forall size,
      (intercept.pvalloc original size tr).1 = original hooks.pvalloc [size]
      /\ real_calls (intercept.pvalloc original size tr).2
         = real_calls tr ++ [intercept.Original hooks.pvalloc [size]])
  /\ (forall filename flag,
      (intercept.dlopen original filename flag tr).1 = original hooks.dlopen [filename; flag]
      /\ real_calls (intercept.dlopen original filename flag tr).2
         = real_calls tr ++ [intercept.Original hooks.dlopen [filename; flag]])
  /\ (forall handle,
      (intercept.dlclose original handle tr).1 = original hooks.dlclose [handle]
      /\ real_calls (intercept.dlclose original handle tr).2
         = real_calls tr ++ [intercept.Original hooks.dlclose [handle]])
  /\ (forall addr length prot flags fd offset,
      (intercept.mmap original addr length prot flags fd offset tr).1
      = original hooks.mmap [addr; length; prot; flags; fd; offset]
      /\ real_calls (intercept.mmap original addr length prot flags fd offset tr).2
         = real_calls tr
           ++ [intercept.Original hooks.mmap [addr; length; prot; flags; fd; offset]])
  /\ (forall addr length prot flags fd offset,
      (intercept.mmap64 original addr length prot flags fd offset tr).1
      = original hooks.mmap64 [addr; length; prot; flags; fd; offset]
      /\ real_calls (intercept.mmap64 original addr length prot flags fd offset tr).2
         = real_calls tr
           ++ [intercept.Original hooks.mmap64 [addr; length; prot; flags; fd; offset]])
  /\ (forall addr length,
      (intercept.munmap original addr length tr).1 = original hooks.munmap [addr; length]
      /\ real_calls (intercept.munmap original addr length tr).2
         = real_calls tr ++ [intercept.Original hooks.munmap [addr; length]])
  /\ ((intercept.PyGILState_Ensure original tr).1 = original hooks.PyGILState_Ensure []
      /\ real_calls (intercept.PyGILState_Ensure original tr).2
         = real_calls tr ++ [intercept.Original hooks.PyGILState_Ensure []]).
Proof. repeat apply conj; trace_trampoline. Qed.

(** X2: what each trampoline tells the sink about memory, by kind: the heap
    allocators report a simple allocation (the guarded ones only on success),
    [mmap] and [mmap64] a ranged allocation, [free] a simple and [munmap] a
    ranged deallocation, [realloc] a simple deallocation and then a simple
    allocation on success; the loader and lock trampolines report none. *)
Theorem trampolines_notify_by_kind original memptr_after tr :
  (forall size,
      sink_notices (intercept.malloc original size tr).2
      = sink_notices tr ++ [(true, hooks.SIMPLE_ALLOCATOR)])
  /\ (forall ptr,
      sink_notices (intercept.free original ptr tr).2
      = sink_notices tr ++ [(false, hooks.SIMPLE_DEALLOCATOR)])
  /\ (forall num size,
      sink_notices (intercept.calloc original num size tr).2
      = sink_notices tr
        ++ if original hooks.calloc [num; size] =? 0 then []
           else [(true, hooks.SIMPLE_ALLOCATOR)])
  /\ (forall ptr size,
      sink_notices (intercept.realloc original ptr size tr).2
      = sink_notices tr
        ++ if original hooks.realloc [ptr; size] =? 0 then []
           else [(false, hooks.SIMPLE_DEALLOCATOR); (true, hooks.SIMPLE_ALLOCATOR)])
  /\ (forall memptr alignment size,
      sink_notices (intercept.posix_memalign original memptr_after memptr alignment size tr).2
      = sink_notices tr
        ++ if original hooks.posix_memalign [memptr; alignment; size] =? 0
           then [(true, hooks.SIMPLE_ALLOCATOR)] else [])
  /\ (forall alignment size,
      sink_notices (intercept.memalign original alignment size tr).2
      = sink_notices tr
        ++ if original hooks.memalign [alignment; size] =? 0 then []
           else [(true, hooks.SIMPLE_ALLOCATOR)])
  /\ (forall size,
      sink_notices (intercept.valloc original size tr).2
      = sink_notices tr
        ++ if original hooks.valloc [size] =? 0 then []
           else [(true, hooks.SIMPLE_ALLOCATOR)])
  /\ (forall size,
      sink_notices (intercept.pvalloc original size tr).2
      = sink_notices tr
        ++ if original hooks.pvalloc [size] =? 0 then []
           else [(true, hooks.SIMPLE_ALLOCATOR)])
  /\ (forall addr length prot flags fd offset,
      sink_notices (intercept.mmap original addr length prot flags fd offset tr).2
      = sink_notices tr ++ [(true, hooks.RANGED_ALLOCATOR)])
  /\ (forall addr length prot flags fd offset,
      sink_notices (intercept.mmap64 original addr length prot flags fd offset tr).2
      = sink_notices tr ++ [(true, hooks.RANGED_ALLOCATOR)])
  /\ (forall addr length,
      sink_notices (intercept.munmap original addr length tr).2
      = sink_notices tr ++ [(false, hooks.RANGED_DEALLOCATOR)])
  /\ (forall filename flag,
      sink_notices (intercept.dlopen original filename flag tr).2 = sink_notices tr)
  /\ (forall handle,
      sink_notices (intercept.dlclose original handle tr).2 = sink_notices tr)
  /\ sink_notices (intercept.PyGILState_Ensure original tr).2 = sink_notices tr.
Proof. repeat apply conj; trace_trampoline. Qed.

(** X3: the [dlopen] trampoline performs the real call first and tells the sink
    to invalidate its module cache exactly when the result is a handle; it
    never flushes the native trace cache.  The [PyGILState_Ensure]
    trampoline acquires the lock through the real function and then always
    asks for the trace function to be installed. *)
Theorem dlopen_invalidates_on_success original filename flag tr :
  intercept.dlopen original filename flag tr
  = (original hooks.dlopen [filename; flag],
     tr ++ intercept.Original hooks.dlopen [filename; flag]
        :: if original hooks.dlopen [filename; flag] =? 0 then []
           else [intercept.invalidate_module_cache])
  /\ intercept.PyGILState_Ensure original tr
     = (original hooks.PyGILState_Ensure [],
        tr ++ [intercept.Original hooks.PyGILState_Ensure [];
               intercept.install_trace_function]).
Proof. split; trace_trampoline. Qed.

(** * The patcher and the patch driver *)

(** ** Paths and the exclusion test *)

Lemma prefix_app needle post : String.prefix needle (needle +:+ post) = true.
Proof.
  induction needle as [|c needle IH]; simpl.
  - by destruct post.
  - destruct (Ascii.ascii_dec c c) as [_|Hne]; [exact IH | by destruct Hne].
Qed.

Lemma prefix_true needle haystack :
  String.prefix needle haystack = true -> exists post, haystack = needle +:+ post.
Proof.
  revert haystack. induction needle as [|c needle IH]; intros haystack Hp.
  - by exists haystack.
  - destruct haystack as [|c' haystack]; cbn in Hp; [done|].
    destruct (Ascii.ascii_dec c c') as [<-|]; [|done].
    destruct (IH _ Hp) as [post ->]. by exists post.
Qed.

Lemma strstr_unfold haystack needle :
  strstr haystack needle
  = if String.prefix needle haystack then Some haystack
    else match haystack with
         | EmptyString => None
         | String _ rest => strstr rest needle
         end.
Proof. by destruct haystack. Qed.

(** [strstr] finds the needle exactly in the strings that hold it somewhere. *)
Lemma strstr_is_Some haystack needle :
  is_Some (strstr haystack needle)
  <-> exists pre post, haystack = pre +:+ needle +:+ post.
Proof.
  split.
  - induction haystack as [|c haystack IH]; rewrite strstr_unfold;
      destruct (String.prefix needle _) eqn:Hp.
    + intros _. destruct (prefix_true _ _ Hp) as [post ->]. by exists "", post.
    + by intros [? ?].
    + intros _. destruct (prefix_true _ _ Hp) as [post ->]. by exists "", post.
    + intros Hs. destruct (IH Hs) as (pre & post & ->). by exists (String c pre), post.
  - intros (pre & post & ->). induction pre as [|c pre IH]; rewrite strstr_unfold.
    + change ("" +:+ needle +:+ post) with (needle +:+ post). by rewrite prefix_app.
    + destruct (String.prefix needle _); [done|]. exact IH.
Qed.

(** X6: the driver excludes a module exactly when its path holds "/ld-linux" or
    "linux-vdso.so.1" anywhere: the test is on a fragment of the path, so a
    library under a directory named after the linker is excluded as well. *)
Theorem is_excluded_tests_a_fragment_of_the_path name :
  elf.is_excluded name = true
  <-> exists pre post,
        name = pre +:+ "/ld-linux" +:+ post \/ name = pre +:+ "linux-vdso.so.1" +:+ post.
Proof.
  unfold elf.is_excluded. rewrite orb_true_iff, !bool_decide_eq_true, !strstr_is_Some.
  split.
  - intros [(pre & post & ->)|(pre & post & ->)]; exists pre, post; [by left|by right].
  - intros (pre & post & [->| ->]); [left|right]; by exists pre, post.
Qed.

(** ** The registry and the [TRY_HOOK] chain *)

Lemma TRY_HOOK_own_symbol hook : elf.TRY_HOOK (hooks.d_symbol hook) = Some hook.
Proof. by destruct hook. Qed.

Lemma TRY_HOOK_Some symname hook :
  elf.TRY_HOOK symname = Some hook -> hooks.d_symbol hook = symname.
Proof.
  unfold elf.TRY_HOOK. intros Hf. apply find_some in Hf as [_ Heq].
  by apply String.eqb_eq.
Qed.

(** X5: the chain is a lookup by name in the registry: each of the fourteen
    hooks is found under its own symbol, whatever the chain finds for a name
    is the hook registered under exactly that name (so "mmap64" is not taken
    for "mmap"), no two hooks share a symbol, and a name finds nothing
    exactly when no hook is registered under it. *)
Theorem TRY_HOOK_is_the_lookup_by_symbol :
  (forall hook, elf.TRY_HOOK (hooks.d_symbol hook) = Some hook)
  /\ (forall symname hook,
        elf.TRY_HOOK symname = Some hook <-> hooks.d_symbol hook = symname)
  /\ (forall hook1 hook2, hooks.d_symbol hook1 = hooks.d_symbol hook2 -> hook1 = hook2)
  /\ (forall symname,
        elf.TRY_HOOK symname = None <-> forall hook, hooks.d_symbol hook <> symname).
Proof.
  split; [exact TRY_HOOK_own_symbol|]. split; [|split].
  - intros symname hook. split; [apply TRY_HOOK_Some|].
    intros <-. apply TRY_HOOK_own_symbol.
  - intros hook1 hook2 Heq.
    pose proof (TRY_HOOK_own_symbol hook1) as H1. rewrite Heq, TRY_HOOK_own_symbol in H1.
    by injection H1.
  - intros symname. split.
    + intros Hnone hook <-. by rewrite TRY_HOOK_own_symbol in Hnone.
    + intros Hall. destruct (elf.TRY_HOOK symname) as [hook|] eqn:Hf; [|done].
      by apply TRY_HOOK_Some, Hall in Hf.
Qed.

Section PatcherFacts.

Variable page_len : Z.
Variable mprotect : Z -> Z -> Z -> Z.
Variable d_original : hooks.SymbolHook -> Z.
Variable intercept : hooks.SymbolHook -> Z.
Variable views : elf_utils.Views.

Local Abbreviation patch_symbol := (elf.patch_symbol page_len mprotect d_original).
Local Abbreviation overwrite_relocation :=
  (elf.overwrite_relocation page_len mprotect d_original intercept).
Local Abbreviation overwrite_elf_table :=
  (elf.overwrite_elf_table page_len mprotect d_original intercept).
Local Abbreviation patch_symbols :=
  (elf.patch_symbols page_len mprotect d_original intercept views).
Local Abbreviation patch_phdr :=
  (elf.patch_phdr page_len mprotect d_original intercept views).
Local Abbreviation scan_module :=
  (elf.scan_module page_len mprotect d_original intercept views).
Local Abbreviation phdrs_callback :=
  (elf.phdrs_callback page_len mprotect d_original intercept views).
Local Abbreviation overwrite_symbols :=
  (elf.overwrite_symbols page_len mprotect d_original intercept views).
Local Abbreviation restore_symbols :=
  (elf.restore_symbols page_len mprotect d_original intercept views).
Local Abbreviation patch_value := (patch_value d_original intercept).
Local Abbreviation extends := (extends d_original intercept).
Local Abbreviation sweep := (sweep page_len mprotect d_original intercept views).

Lemma extends_refl r st : extends r [] st st.
Proof.
  repeat split. exists []. by rewrite app_nil_r.
Qed.

Lemma extends_trans r l1 l2 st1 st2 st3 :
  extends r l1 st1 st2 -> extends r l2 st2 st3 -> extends r (l1 ++ l2) st1 st3.
Proof.
  intros (Hp1 & Hm1 & es1 & He1 & Hf1) (Hp2 & Hm2 & es2 & He2 & Hf2).
  split; [congruence|]. split.
  - rewrite Hm2, Hm1. unfold apply_patches. by rewrite fold_left_app.
  - exists (es1 ++ es2). split.
    + rewrite He2, He1. by rewrite app_assoc.
    + by rewrite filter_app, map_app, Hf1, Hf2.
Qed.

Lemma extends_perform_silent r e st :
  silent e = true -> extends r [] st (elf.perform e st).
Proof.
  intros He. split; [done|]. split.
  - destruct e; try done.
  - exists [e]. split; [done|]. rewrite filter_cons, decide_False by congruence. done.
Qed.

Lemma extends_perform_store r a h st :
  extends r [(a, h)] st (elf.perform (elf.store a (patch_value r h)) st).
Proof.
  split; [done|]. split; [done|]. eexists. split; [done|]. done.
Qed.

Lemma patch_symbol_extends r hook symname addr st :
  extends r [(addr, hook)] st (patch_symbol hook (intercept hook) symname addr r st).
Proof.
  unfold elf.patch_symbol, elf.unprotect_page.
  set (st1 := elf.perform (elf.mprotect_call _ _ _) st).
  set (st2 := if _ <? 0 then _ else st1).
  assert (H1 : extends r [] st st1) by by apply extends_perform_silent.
  assert (H2 : extends r [] st1 st2).
  { subst st2. destruct (_ <? 0); [by apply extends_perform_silent | apply extends_refl]. }
  change [(addr, hook)] with ((([] ++ []) ++ [(addr, hook)]) ++ []).
  eapply extends_trans; [eapply extends_trans; [eapply extends_trans|]|].
  - exact H1.
  - exact H2.
  - apply extends_perform_store.
  - by apply extends_perform_silent.
Qed.

Lemma overwrite_relocation_extends r symbols base st relocation :
  extends r (option_list (relocation_slot symbols base relocation)) st
    (overwrite_relocation symbols base r st relocation).
Proof.
  unfold elf.overwrite_relocation, relocation_slot.
  destruct (elf.TRY_HOOK _) as [hook|]; cbn [option_list].
  - apply patch_symbol_extends.
  - apply extends_refl.
Qed.

Lemma overwrite_elf_table_extends r table symbols base st :
  extends r (omap (relocation_slot symbols base) table) st
    (overwrite_elf_table table symbols base r st).
Proof.
  unfold elf.overwrite_elf_table. revert st.
  induction table as [|relocation table IH]; intros st; [apply extends_refl|].
  cbn [fold_left].
  replace (omap _ (relocation :: table))
    with (option_list (relocation_slot symbols base relocation)
          ++ omap (relocation_slot symbols base) table)
    by (cbn; by destruct (relocation_slot _ _ _)).
  eapply extends_trans; [apply overwrite_relocation_extends | apply IH].
Qed.

Lemma extends_after_silent r e slots st st' :
  silent e = true -> extends r slots (elf.perform e st) st' -> extends r slots st st'.
Proof.
  intros He H. change slots with ([] ++ slots).
  eapply extends_trans; [by apply extends_perform_silent | exact H].
Qed.

Lemma extends_after_table r table symbols base slots st st' :
  extends r slots (overwrite_elf_table table symbols base r st) st' ->
  extends r (omap (relocation_slot symbols base) table ++ slots) st st'.
Proof.
  intros H. eapply extends_trans; [apply overwrite_elf_table_extends | exact H].
Qed.

Lemma patch_symbols_extends r dyn base st :
  extends r (dyn_slots views dyn base) st (patch_symbols dyn base r st).
Proof.
  unfold elf.patch_symbols, dyn_slots. cbv zeta.
  eapply extends_after_silent; [|apply extends_after_table].
  2: eapply extends_after_silent; [|apply extends_after_table].
  3: eapply extends_after_silent; [|apply overwrite_elf_table_extends].
  all: done.
Qed.

Lemma patch_phdr_extends r dlpi_addr st phdr :
  extends r (phdr_slots views dlpi_addr phdr) st (patch_phdr dlpi_addr r st phdr).
Proof.
  unfold elf.patch_phdr, phdr_slots.
  destruct (negb _); [apply extends_refl | apply patch_symbols_extends].
Qed.

Lemma patch_phdrs_extends r dlpi_addr phdrs st :
  extends r (flat_map (phdr_slots views dlpi_addr) phdrs) st
    (fold_left (patch_phdr dlpi_addr r) phdrs st).
Proof.
  revert st. induction phdrs as [|phdr phdrs IH]; intros st; [apply extends_refl|].
  cbn [fold_left flat_map].
  eapply extends_trans; [apply patch_phdr_extends | apply IH].
Qed.

(** A continuation adds no [INFO] line. *)
Lemma patch_count_extends r slots st st' name :
  extends r slots st st' ->
  patch_count name (elf.effects st') = patch_count name (elf.effects st).
Proof.
  intros (_ & _ & es & -> & Hf). unfold patch_count.
  rewrite filter_app, length_app.
  enough (filter (fun e => e = elf.LOG elf.INFO ("Patching symbols for " +:+ name)) es = [])
    as -> by (cbn; lia).
  destruct (filter (fun e => e = elf.LOG _ _) es) as [|e l] eqn:Hfil; [done|exfalso].
  assert (He : e ∈ e :: l) by left. rewrite <- Hfil in He.
  apply list_elem_of_filter in He as [-> He].
  assert (Hin : elf.LOG elf.INFO ("Patching symbols for " +:+ name)
                ∈ filter (fun e => silent e = false) es)
    by (by apply list_elem_of_filter).
  rewrite Hf in Hin. apply list_elem_of_fmap in Hin as (slot & Heq & _). discriminate.
Qed.

(** What scanning a module does. *)
Lemma scan_module_spec r info st :
  let st' := (scan_module r info st).2 in
  (scan_module r info st).1 = 0
  /\ elf.patched st' = elf.patched st
  /\ elf.memory st'
     = apply_patches (patch_value r) (module_slots views info) (elf.memory st)
  /\ forall name,
       patch_count name (elf.effects st')
       = (patch_count name (elf.effects st)
          + if bool_decide (name = link.dlpi_name info)
               && negb (elf.is_excluded (link.dlpi_name info))
            then 1 else 0)%nat.
Proof.
  unfold elf.scan_module, module_slots.
  destruct (elf.is_excluded _) eqn:Hex; cbn [fst snd].
  - repeat split. intros name. rewrite andb_false_r. lia.
  - set (st1 := elf.perform _ st).
    pose proof (patch_phdrs_extends r (link.dlpi_addr info) (link.dlpi_phdr info) st1) as Hext.
    split; [done|]. split; [by destruct Hext as (-> & _)|].
    split; [by destruct Hext as (_ & -> & _)|].
    intros name. rewrite (patch_count_extends _ _ _ _ _ Hext).
    subst st1. unfold patch_count. cbn [elf.effects elf.perform].
    rewrite filter_app, length_app, andb_true_r. f_equal.
    rewrite filter_cons, filter_nil.
    case_bool_decide as Hname.
    + subst name. by rewrite decide_True.
    + rewrite decide_False; [done|]. intros Heq. apply Hname.
      cbn in Heq. by simplify_eq.
Qed.

(** ** One module *)

Lemma phdrs_callback_restore info st :
  let st' := (phdrs_callback true info st).2 in
  (phdrs_callback true info st).1 = 0
  /\ elf.patched st' = ∅
  /\ elf.memory st'
     = apply_patches (patch_value true) (module_slots views info) (elf.memory st)
  /\ forall name,
       patch_count name (elf.effects st')
       = (patch_count name (elf.effects st)
          + if bool_decide (name = link.dlpi_name info)
               && negb (elf.is_excluded (link.dlpi_name info))
            then 1 else 0)%nat.
Proof.
  unfold elf.phdrs_callback.
  destruct (scan_module_spec true info (elf.set_patched ∅ st)) as (H1 & H2 & H3 & H4).
  repeat split; done.
Qed.

Lemma phdrs_callback_skip info st :
  link.dlpi_name info ∈ elf.patched st -> phdrs_callback false info st = (0, st).
Proof. intros Hin. unfold elf.phdrs_callback. by rewrite bool_decide_true. Qed.

Lemma phdrs_callback_overwrite info st :
  link.dlpi_name info ∉ elf.patched st ->
  let st' := (phdrs_callback false info st).2 in
  (phdrs_callback false info st).1 = 0
  /\ elf.patched st' = {[link.dlpi_name info]} ∪ elf.patched st
  /\ elf.memory st'
     = apply_patches (patch_value false) (module_slots views info) (elf.memory st)
  /\ forall name,
       patch_count name (elf.effects st')
       = (patch_count name (elf.effects st)
          + if bool_decide (name = link.dlpi_name info)
               && negb (elf.is_excluded (link.dlpi_name info))
            then 1 else 0)%nat.
Proof.
  intros Hin. unfold elf.phdrs_callback. rewrite bool_decide_false by done.
  destruct (scan_module_spec false info
              (elf.set_patched ({[link.dlpi_name info]} ∪ elf.patched st) st))
    as (H1 & H2 & H3 & H4).
  repeat split; done.
Qed.

Lemma phdrs_callback_returns_0 r info st : (phdrs_callback r info st).1 = 0.
Proof.
  destruct r.
  - apply phdrs_callback_restore.
  - destruct (decide (link.dlpi_name info ∈ elf.patched st)) as [Hin|Hin].
    + by rewrite phdrs_callback_skip.
    + by apply phdrs_callback_overwrite.
Qed.

(** ** A sweep *)

(** The callback never stops the enumeration: a sweep runs it on every
    loaded object in turn. *)
Lemma sweep_cons r info rest st :
  (link.dl_iterate_phdr (phdrs_callback r) (info :: rest) st).2
  = (link.dl_iterate_phdr (phdrs_callback r) rest (phdrs_callback r info st).2).2.
Proof.
  cbn [link.dl_iterate_phdr].
  pose proof (phdrs_callback_returns_0 r info st) as H0.
  destruct (phdrs_callback r info st) as [rc st1]. cbn [fst snd] in *. by subst rc.
Qed.

Lemma sweep_app r pre post st :
  (link.dl_iterate_phdr (phdrs_callback r) (pre ++ post) st).2
  = (link.dl_iterate_phdr (phdrs_callback r) post
       (link.dl_iterate_phdr (phdrs_callback r) pre st).2).2.
Proof.
  revert st. induction pre as [|info pre IH]; intros st; [done|].
  rewrite <- app_comm_cons, !sweep_cons. apply IH.
Qed.

Lemma restore_symbols_cons info rest st :
  restore_symbols (info :: rest) st = restore_symbols rest (phdrs_callback true info st).2.
Proof. apply sweep_cons. Qed.

Lemma overwrite_symbols_cons info rest st :
  overwrite_symbols (info :: rest) st
  = overwrite_symbols rest (phdrs_callback false info st).2.
Proof. apply sweep_cons. Qed.

Lemma restore_symbols_memory loaded st :
  elf.memory (restore_symbols loaded st)
  = apply_patches (patch_value true) (flat_map (module_slots views) loaded) (elf.memory st).
Proof.
  revert st. induction loaded as [|info rest IH]; intros st; [done|].
  rewrite restore_symbols_cons, IH. cbn [flat_map].
  destruct (phdrs_callback_restore info st) as (_ & _ & -> & _).
  unfold apply_patches. by rewrite fold_left_app.
Qed.

Lemma restore_symbols_patched info rest st :
  elf.patched (restore_symbols (info :: rest) st) = ∅.
Proof.
  revert info st. induction rest as [|info' rest IH]; intros info st.
  - rewrite restore_symbols_cons. apply phdrs_callback_restore.
  - rewrite restore_symbols_cons. apply IH.
Qed.

Lemma overwrite_symbols_memory loaded st :
  elf.memory (overwrite_symbols loaded st)
  = apply_patches (patch_value false)
      (flat_map (module_slots views) (overwrite_visits loaded (elf.patched st)))
      (elf.memory st).
Proof.
  revert st. induction loaded as [|info rest IH]; intros st; [done|].
  rewrite overwrite_symbols_cons. cbn [overwrite_visits].
  case_bool_decide as Hin.
  - rewrite phdrs_callback_skip by done. apply IH.
  - rewrite IH. destruct (phdrs_callback_overwrite info st Hin) as (_ & -> & -> & _).
    cbn [flat_map]. unfold apply_patches. by rewrite fold_left_app.
Qed.

Lemma overwrite_symbols_patched loaded st :
  elf.patched (overwrite_symbols loaded st)
  = list_to_set (map link.dlpi_name loaded) ∪ elf.patched st.
Proof.
  revert st. induction loaded as [|info rest IH]; intros st.
  - cbn. set_solver.
  - rewrite overwrite_symbols_cons, IH. cbn [map list_to_set].
    destruct (decide (link.dlpi_name info ∈ elf.patched st)) as [Hin|Hin].
    + rewrite phdrs_callback_skip by done. cbn [snd]. set_solver.
    + destruct (phdrs_callback_overwrite info st Hin) as (_ & -> & _). set_solver.
Qed.

(** A sweep over modules that are all in the patched set does nothing. *)
Lemma overwrite_symbols_all_patched loaded st :
  Forall (fun info => link.dlpi_name info ∈ elf.patched st) loaded ->
  overwrite_symbols loaded st = st.
Proof.
  induction 1 as [|info rest Hin _ IH]; [done|].
  by rewrite overwrite_symbols_cons, phdrs_callback_skip.
Qed.

Lemma counted_epoch_start mem : counted (epoch_start mem).
Proof. intros name. cbn. by rewrite bool_decide_false by set_solver. Qed.

Lemma counted_phdrs_callback info st :
  counted st -> counted (phdrs_callback false info st).2.
Proof.
  intros Hc. destruct (decide (link.dlpi_name info ∈ elf.patched st)) as [Hin|Hin].
  - by rewrite phdrs_callback_skip.
  - destruct (phdrs_callback_overwrite info st Hin) as (_ & Hp & _ & Hn).
    intros name. rewrite Hn, Hp, Hc. clear Hn Hc.
    destruct (decide (name = link.dlpi_name info)) as [->|Hne].
    + rewrite (bool_decide_true (_ = _)) by done.
      rewrite (bool_decide_false (_ ∈ elf.patched st)) by done.
      rewrite (bool_decide_true (_ ∈ _ ∪ _)) by set_solver.
      cbn. by destruct (elf.is_excluded _).
    + rewrite (bool_decide_false (_ = _)) by done. cbn [andb].
      rewrite Nat.add_0_r.
      destruct (decide (name ∈ elf.patched st)) as [Hn|Hn].
      * rewrite !bool_decide_true by set_solver. done.
      * rewrite !bool_decide_false by set_solver. done.
Qed.

Lemma counted_overwrite_symbols loaded st :
  counted st -> counted (overwrite_symbols loaded st).
Proof.
  revert st. induction loaded as [|info rest IH]; intros st Hc; [done|].
  rewrite overwrite_symbols_cons. by apply IH, counted_phdrs_callback.
Qed.

(** ** Memory after a list of stores *)

Lemma apply_patches_cons value slot slots mem :
  apply_patches value (slot :: slots) mem
  = apply_patches value slots (elf.write slot.1 (value slot.2) mem).
Proof. reflexivity. Qed.

Lemma apply_patches_untouched value slots mem a :
  a ∉ slots.*1 -> apply_patches value slots mem a = mem a.
Proof.
  revert mem. induction slots as [|slot slots IH]; intros mem Ha; [done|].
  rewrite apply_patches_cons, IH by set_solver.
  unfold elf.write. rewrite (proj2 (Z.eqb_neq a slot.1)); [done|]. set_solver.
Qed.

(** The last store into a slot decides what it holds. *)
Lemma apply_patches_touched value slots mem a :
  a ∈ slots.*1 ->
  exists hook, (a, hook) ∈ slots /\ apply_patches value slots mem a = value hook.
Proof.
  revert mem. induction slots as [|[a' hook'] slots IH]; intros mem Ha.
  - by apply elem_of_nil in Ha.
  - rewrite apply_patches_cons. cbn [fst snd].
    destruct (decide (a ∈ slots.*1)) as [Hin|Hout].
    + destruct (IH (elf.write a' (value hook') mem) Hin) as (hook & Hh & ->).
      exists hook. split; [by right | done].
    + assert (a = a') as -> by set_solver.
      exists hook'. split; [left|].
      rewrite apply_patches_untouched by done.
      unfold elf.write. cbn. by rewrite Z.eqb_refl.
Qed.

Lemma overwrite_visits_subseteq loaded s : overwrite_visits loaded s ⊆ loaded.
Proof.
  revert s. induction loaded as [|info rest IH]; intros s; [done|].
  cbn [overwrite_visits]. case_bool_decide.
  - by apply list_subseteq_cons.
  - intros x Hx. apply elem_of_cons in Hx as [->|Hx]; [left|right]. by eapply IH.
Qed.

Lemma flat_map_slots_subseteq (visited loaded : list link.dl_phdr_info) a :
  visited ⊆ loaded ->
  a ∈ (flat_map (module_slots views) visited).*1 ->
  a ∈ (flat_map (module_slots views) loaded).*1.
Proof.
  intros Hsub Ha. apply list_elem_of_fmap in Ha as ([a' hook] & -> & Hin).
  apply list_elem_of_In, in_flat_map in Hin as (info & Hinfo & Hslot).
  apply list_elem_of_fmap. exists (a', hook). split; [done|].
  apply list_elem_of_In, in_flat_map. exists info. split; [|done].
  apply list_elem_of_In, Hsub, list_elem_of_In, Hinfo.
Qed.

(** ** The claims on the patcher *)

(** C2, as amended: an overwrite sweep followed by a restore sweep over the
    same loaded modules (at least one) leaves the patched set empty, leaves
    every address that is no matched slot as it was, and leaves in every
    matched slot the captured original pointer of the hook matched by an
    entry for that slot.  The slots are therefore back at their pre-patch
    values when they held the captured originals before patching. *)
Theorem overwrite_then_restore_writes_originals loaded st :
  loaded <> [] ->
  let slots := flat_map (module_slots views) loaded in
  let st' := restore_symbols loaded (overwrite_symbols loaded st) in
  elf.patched st' = ∅
  /\ (forall a, a ∉ slots.*1 -> elf.memory st' a = elf.memory st a)
  /\ (forall a, a ∈ slots.*1 ->
        exists hook, (a, hook) ∈ slots /\ elf.memory st' a = d_original hook)
  /\ ((forall a hook, (a, hook) ∈ slots -> elf.memory st a = d_original hook) ->
      forall a, elf.memory st' a = elf.memory st a).
Proof.
  intros Hne slots st'.
  assert (Hout : forall a, a ∉ slots.*1 -> elf.memory st' a = elf.memory st a).
  { intros a Ha. subst st'. rewrite restore_symbols_memory.
    fold slots. rewrite apply_patches_untouched by done.
    rewrite overwrite_symbols_memory. apply apply_patches_untouched.
    intros Hin. apply Ha. eapply flat_map_slots_subseteq; [|exact Hin].
    apply overwrite_visits_subseteq. }
  assert (Hin : forall a, a ∈ slots.*1 ->
            exists hook, (a, hook) ∈ slots /\ elf.memory st' a = d_original hook).
  { intros a Ha. subst st'. rewrite restore_symbols_memory. fold slots.
    by apply (apply_patches_touched (patch_value true)). }
  split; [|split; [exact Hout|split; [exact Hin|]]].
  - subst st'. destruct loaded as [|info rest]; [done|]. apply restore_symbols_patched.
  - intros Hpre a. destruct (decide (a ∈ slots.*1)) as [Ha|Ha]; [|by apply Hout].
    destruct (Hin a Ha) as (hook & Hh & ->). symmetry. by apply Hpre.
Qed.

(** C5: a second overwrite sweep over the same modules, with no restore in
    between, changes nothing at all: every module is in the patched set and
    is skipped.  Counted from the start of an epoch, the log then shows one
    scan for each loaded module that is not excluded and none for an excluded
    one, and whatever modules a second sweep meets, no name is ever scanned
    more than once. *)
Theorem second_overwrite_patches_nothing loaded st mem :
  overwrite_symbols loaded (overwrite_symbols loaded st) = overwrite_symbols loaded st
  /\ Forall (fun info =>
       patch_count (link.dlpi_name info)
         (elf.effects (overwrite_symbols loaded (overwrite_symbols loaded (epoch_start mem))))
       = if elf.is_excluded (link.dlpi_name info) then 0%nat else 1%nat) loaded
  /\ forall loaded' name,
       (patch_count name
          (elf.effects (overwrite_symbols loaded' (overwrite_symbols loaded (epoch_start mem))))
        <= 1)%nat.
Proof.
  assert (Hidem : forall st0,
            overwrite_symbols loaded (overwrite_symbols loaded st0)
            = overwrite_symbols loaded st0).
  { intros st0. apply overwrite_symbols_all_patched, Forall_forall. intros info Hin.
    rewrite overwrite_symbols_patched. apply elem_of_union_l, elem_of_list_to_set.
    apply list_elem_of_fmap. by exists info. }
  split; [apply Hidem|]. split.
  - rewrite Hidem. apply Forall_forall. intros info Hin.
    rewrite (counted_overwrite_symbols loaded _ (counted_epoch_start mem)).
    rewrite bool_decide_true; [by destruct (elf.is_excluded _)|].
    rewrite overwrite_symbols_patched. apply elem_of_union_l, elem_of_list_to_set.
    apply list_elem_of_fmap. by exists info.
  - intros loaded' name.
    rewrite (counted_overwrite_symbols loaded' _
               (counted_overwrite_symbols loaded _ (counted_epoch_start mem))).
    destruct (_ && _); lia.
Qed.

(** C8: [patch_symbol] asks for the page to be made writable, logs a warning
    exactly when [mprotect] returns a negative value, and in either case
    stores the chosen pointer into the slot and logs the interception; it
    returns nothing, so no failure reaches the caller. *)
Theorem patch_symbol_stores_whatever_mprotect_returns hook intercept_fn symname addr
    (r : bool) st :
  let memory_page := Z.land addr (Z.lnot (page_len - 1)) in
  let rc := mprotect memory_page page_len 3 in
  let value := if r then d_original hook else intercept_fn in
  patch_symbol hook intercept_fn symname addr r st
  = {| elf.memory := elf.write addr value (elf.memory st);
       elf.patched := elf.patched st;
       elf.effects :=
         elf.effects st
         ++ elf.mprotect_call memory_page page_len 3
            :: (if rc <? 0
                then [elf.LOG elf.WARNING
                        ("Could not prepare the memory page for symbol "
                         +:+ symname +:+ " for patching")]
                else [])
            ++ [elf.store addr value; elf.LOG elf.DEBUG (symname +:+ " intercepted!")] |}
  /\ elf.memory (patch_symbol hook intercept_fn symname addr r st) addr = value.
Proof.
  intros memory_page rc value.
  assert (Heq : patch_symbol hook intercept_fn symname addr r st
                = {| elf.memory := elf.write addr value (elf.memory st);
                     elf.patched := elf.patched st;
                     elf.effects :=
                       elf.effects st
                       ++ elf.mprotect_call memory_page page_len 3
                          :: (if rc <? 0
                              then [elf.LOG elf.WARNING
                                      ("Could not prepare the memory page for symbol "
                                       +:+ symname +:+ " for patching")]
                              else [])
                          ++ [elf.store addr value;
                              elf.LOG elf.DEBUG (symname +:+ " intercepted!")] |}).
  { unfold elf.patch_symbol, elf.unprotect_page.
    change (Z.lor elf.PROT_READ elf.PROT_WRITE) with 3.
    fold memory_page. fold rc. fold value.
    destruct (rc <? 0); unfold elf.perform; cbn [elf.memory elf.patched elf.effects];
      f_equal; rewrite <- ?app_assoc; reflexivity. }
  split; [exact Heq|]. rewrite Heq. cbn. unfold elf.write. by rewrite Z.eqb_refl.
Qed.

Lemma sweep_unfold r loaded st :
  sweep r loaded st = (link.dl_iterate_phdr (phdrs_callback r) loaded st).2.
Proof. by destruct r. Qed.

Lemma scan_module_excluded r info st :
  elf.is_excluded (link.dlpi_name info) = true -> scan_module r info st = (0, st).
Proof. intros Hex. unfold elf.scan_module. by rewrite Hex. Qed.

(** ** What a scan does depends on the memory and the history alone *)

Lemma perform_same e st1 st2 :
  same_world st1 st2 -> same_world (elf.perform e st1) (elf.perform e st2).
Proof.
  intros [Hm He]. split; cbn [elf.perform elf.memory elf.effects]; by rewrite ?Hm, ?He.
Qed.

Lemma set_patched_same s1 s2 st1 st2 :
  same_world st1 st2 -> same_world (elf.set_patched s1 st1) (elf.set_patched s2 st2).
Proof. by intros [Hm He]. Qed.

Lemma fold_left_same {A} (f : elf.Process -> A -> elf.Process) (l : list A) :
  (forall x st1 st2, same_world st1 st2 -> same_world (f st1 x) (f st2 x)) ->
  forall st1 st2,
    same_world st1 st2 -> same_world (fold_left f l st1) (fold_left f l st2).
Proof.
  intros Hf. induction l as [|x l IH]; intros st1 st2 Hs; [done|].
  cbn [fold_left]. by apply IH, Hf.
Qed.

Lemma patch_symbol_same hook intercept_fn symname addr r st1 st2 :
  same_world st1 st2 ->
  same_world (patch_symbol hook intercept_fn symname addr r st1)
    (patch_symbol hook intercept_fn symname addr r st2).
Proof.
  intros Hs. unfold elf.patch_symbol, elf.unprotect_page.
  destruct (_ <? 0); repeat apply perform_same; done.
Qed.

Lemma overwrite_elf_table_same table symbols base r st1 st2 :
  same_world st1 st2 ->
  same_world (overwrite_elf_table table symbols base r st1)
    (overwrite_elf_table table symbols base r st2).
Proof.
  apply fold_left_same. intros relocation s1 s2 Hs. unfold elf.overwrite_relocation.
  destruct (elf.TRY_HOOK _); [by apply patch_symbol_same | done].
Qed.

Lemma patch_phdrs_same dlpi_addr r phdrs st1 st2 :
  same_world st1 st2 ->
  same_world (fold_left (patch_phdr dlpi_addr r) phdrs st1)
    (fold_left (patch_phdr dlpi_addr r) phdrs st2).
Proof.
  apply fold_left_same. intros phdr s1 s2 Hs. unfold elf.patch_phdr.
  destruct (negb _); [done|]. unfold elf.patch_symbols.
  repeat first [apply overwrite_elf_table_same | apply perform_same]. done.
Qed.

Lemma scan_module_same r info st1 st2 :
  same_world st1 st2 ->
  same_world (scan_module r info st1).2 (scan_module r info st2).2.
Proof.
  intros Hs. unfold elf.scan_module. destruct (elf.is_excluded _); [done|].
  cbn [snd]. by apply patch_phdrs_same, perform_same.
Qed.

Lemma scan_module_patched r info st :
  elf.patched (scan_module r info st).2 = elf.patched st.
Proof. apply scan_module_spec. Qed.

Lemma phdrs_callback_same r info st1 st2 :
  same_world st1 st2 ->
  (r = false -> agree_outside_excluded st1 st2) ->
  same_world (phdrs_callback r info st1).2 (phdrs_callback r info st2).2
  /\ (r = false ->
      agree_outside_excluded (phdrs_callback r info st1).2 (phdrs_callback r info st2).2).
Proof.
  intros Hs Ha. unfold elf.phdrs_callback. destruct r.
  - split; [|done]. by apply scan_module_same, set_patched_same.
  - specialize (Ha eq_refl).
    destruct (elf.is_excluded (link.dlpi_name info)) eqn:Hex.
    + rewrite !scan_module_excluded by done.
      assert (Hother : forall name, elf.is_excluded name = false ->
                name <> link.dlpi_name info) by (intros name Hn ->; congruence).
      repeat case_bool_decide; cbn [snd]; (split; [by destruct Hs|]);
        intros _ name Hn; specialize (Ha name Hn); specialize (Hother name Hn);
        cbn [elf.set_patched elf.patched]; set_solver.
    + pose proof (Ha _ Hex) as Hiff.
      destruct (decide (link.dlpi_name info ∈ elf.patched st1)) as [H1|H1].
      * assert (H2 : link.dlpi_name info ∈ elf.patched st2) by (by apply Hiff).
        rewrite !bool_decide_true by done. done.
      * assert (H2 : link.dlpi_name info ∉ elf.patched st2) by (by rewrite <- Hiff).
        rewrite !bool_decide_false by done.
        split; [by apply scan_module_same, set_patched_same|].
        intros _ name Hn. rewrite !scan_module_patched. specialize (Ha name Hn).
        cbn [elf.set_patched elf.patched]. set_solver.
Qed.

Lemma sweep_same r loaded st1 st2 :
  same_world st1 st2 ->
  (r = false -> agree_outside_excluded st1 st2) ->
  same_world (sweep r loaded st1) (sweep r loaded st2).
Proof.
  rewrite !sweep_unfold. revert st1 st2.
  induction loaded as [|info rest IH]; intros st1 st2 Hs Ha; [done|].
  rewrite !sweep_cons.
  destruct (phdrs_callback_same r info st1 st2 Hs Ha) as [Hs' Ha']. by apply IH.
Qed.

(** C9: in a sweep of either kind, when the enumeration reaches a module
    whose path contains "/ld-linux" or "linux-vdso.so.1", the callback
    leaves the memory as it is and does nothing that the history records (no
    scan is logged, no page is unprotected, no slot is stored into), and the
    sweep goes on with the modules after it.  The whole sweep ends with the
    memory and the history of the sweep in which that module is not
    enumerated at all. *)
Theorem excluded_module_is_never_scanned r pre info post st :
  elf.is_excluded (link.dlpi_name info) = true ->
  let before := sweep r pre st in
  let after := (phdrs_callback r info before).2 in
  sweep r (pre ++ info :: post) st = sweep r post after
  /\ elf.memory after = elf.memory before
  /\ elf.effects after = elf.effects before
  /\ elf.memory (sweep r (pre ++ info :: post) st) = elf.memory (sweep r (pre ++ post) st)
  /\ elf.effects (sweep r (pre ++ info :: post) st) = elf.effects (sweep r (pre ++ post) st).
Proof.
  intros Hex before after.
  assert (Hstep : sweep r (pre ++ info :: post) st = sweep r post after)
    by (subst after before; rewrite !sweep_unfold; by rewrite sweep_app, sweep_cons).
  assert (Hskip : sweep r (pre ++ post) st = sweep r post before)
    by (subst before; rewrite !sweep_unfold; by rewrite sweep_app).
  assert (Hsame : same_world after before).
  { subst after. unfold elf.phdrs_callback. rewrite !scan_module_excluded by done.
    destruct r; [done|]. by case_bool_decide. }
  assert (Hagree : r = false -> agree_outside_excluded after before).
  { intros -> name Hn. subst after. unfold elf.phdrs_callback.
    rewrite !scan_module_excluded by done.
    assert (name <> link.dlpi_name info) by (intros ->; congruence).
    case_bool_decide; cbn [snd elf.set_patched elf.patched]; set_solver. }
  split; [exact Hstep|]. split; [apply Hsame|]. split; [apply Hsame|].
  rewrite Hstep, Hskip. by apply sweep_same.
Qed.

(** C10: an overwrite sweep leaves the name of every enumerated module in
    the patched set.  A module that is not yet in the set is inserted by the
    callback whether or not it is excluded, and for an excluded module the
    insertion is all the callback does. *)
Theorem overwrite_marks_excluded_modules_patched loaded info st :
  info ∈ loaded ->
  link.dlpi_name info ∈ elf.patched (overwrite_symbols loaded st)
  /\ forall st0,
       link.dlpi_name info ∉ elf.patched st0 ->
       elf.patched (phdrs_callback false info st0).2
       = {[link.dlpi_name info]} ∪ elf.patched st0
       /\ (elf.is_excluded (link.dlpi_name info) = true ->
           phdrs_callback false info st0
           = (0, elf.set_patched ({[link.dlpi_name info]} ∪ elf.patched st0) st0)).
Proof.
  intros Hin. split.
  - rewrite overwrite_symbols_patched. apply elem_of_union_l, elem_of_list_to_set.
    apply list_elem_of_fmap. by exists info.
  - intros st0 Hnew. split; [by apply phdrs_callback_overwrite|].
    intros Hex. unfold elf.phdrs_callback.
    rewrite bool_decide_false by done. by apply scan_module_excluded.
Qed.

(** ** Further properties of the patch driver *)

(** X7: the callback of the driver never stops the enumeration: a sweep of
    either kind returns 0 from [dl_iterate_phdr] after the callback has run
    on every loaded module, first to last. *)
Theorem sweep_runs_the_callback_on_every_module r loaded st :
  link.dl_iterate_phdr (phdrs_callback r) loaded st
  = (0, fold_left (fun st info => (phdrs_callback r info st).2) loaded st).
Proof.
  revert st. induction loaded as [|info rest IH]; intros st; [done|].
  cbn [link.dl_iterate_phdr fold_left].
  pose proof (phdrs_callback_returns_0 r info st) as H0.
  destruct (phdrs_callback r info st) as [rc st1]. cbn [fst snd] in *. subst rc.
  cbn [Z.eqb]. apply IH.
Qed.

(** What a slot holds after a list of stores does not depend on what the
    memory held before. *)
Lemma apply_patches_overrides value slots mem mem' a :
  a ∈ slots.*1 -> apply_patches value slots mem a = apply_patches value slots mem' a.
Proof.
  revert mem mem'. induction slots as [|[a' hook'] slots IH]; intros mem mem' Ha.
  - by apply elem_of_nil in Ha.
  - rewrite !apply_patches_cons. cbn [fst snd].
    destruct (decide (a ∈ slots.*1)) as [Hin|Hout]; [by apply IH|].
    assert (a = a') as -> by set_solver.
    rewrite !apply_patches_untouched by done. unfold elf.write. by rewrite Z.eqb_refl.
Qed.

(** X8: a restore sweep is unconditional: whatever the patched set holds, and
    whether or not an overwrite sweep came before, it leaves in every matched
    slot of every module that is not excluded the captured original of a hook
    matched at that slot, and changes no other address. *)
Theorem restore_writes_originals_unconditionally loaded st :
  let slots := flat_map (module_slots views) loaded in
  let st' := restore_symbols loaded st in
  (forall a, a ∉ slots.*1 -> elf.memory st' a = elf.memory st a)
  /\ (forall a, a ∈ slots.*1 ->
        exists hook, (a, hook) ∈ slots /\ elf.memory st' a = d_original hook)
  /\ (forall s, same_world (restore_symbols loaded (elf.set_patched s st)) st').
Proof.
  intros slots st'. subst st'. split; [|split].
  - intros a Ha. rewrite restore_symbols_memory. by apply apply_patches_untouched.
  - intros a Ha. rewrite restore_symbols_memory.
    by apply (apply_patches_touched (patch_value true)).
  - intros s. by apply (sweep_same true).
Qed.

(** X9: restoring twice is restoring once, as far as the memory and the patched
    set go. *)
Theorem restore_twice_is_restore_once loaded st :
  let once := restore_symbols loaded st in
  let twice := restore_symbols loaded once in
  (forall a, elf.memory twice a = elf.memory once a)
  /\ elf.patched twice = elf.patched once.
Proof.
  intros once twice. subst once twice. split.
  - intros a. rewrite !restore_symbols_memory.
    destruct (decide (a ∈ (flat_map (module_slots views) loaded).*1)) as [Ha|Ha].
    + by apply apply_patches_overrides.
    + by rewrite (apply_patches_untouched _ _ (apply_patches _ _ _)).
  - destruct loaded as [|info rest]; [done|]. by rewrite !restore_symbols_patched.
Qed.

Lemma overwrite_visits_fresh loaded (s : gset string) :
  NoDup (map link.dlpi_name loaded) ->
  Forall (fun info => link.dlpi_name info ∉ s) loaded ->
  overwrite_visits loaded s = loaded.
Proof.
  revert s. induction loaded as [|info rest IH]; intros s Hnd Hfresh; [done|].
  cbn [overwrite_visits]. inversion Hnd as [|? ? Hnotin Hnd']; subst.
  inversion Hfresh as [|? ? Hinfo Hrest]; subst.
  rewrite bool_decide_false by done. f_equal. apply IH; [done|].
  apply Forall_forall. intros info' Hin'.
  rewrite Forall_forall in Hrest. specialize (Hrest _ Hin').
  assert (link.dlpi_name info' <> link.dlpi_name info).
  { intros Heq. apply Hnotin. rewrite <- Heq. apply list_elem_of_fmap. by exists info'. }
  set_solver.
Qed.

Lemma overwrite_symbols_fresh loaded st :
  NoDup (map link.dlpi_name loaded) ->
  Forall (fun info => link.dlpi_name info ∉ elf.patched st) loaded ->
  elf.memory (overwrite_symbols loaded st)
  = apply_patches (patch_value false) (flat_map (module_slots views) loaded) (elf.memory st).
Proof.
  intros Hnd Hfresh. by rewrite overwrite_symbols_memory, overwrite_visits_fresh.
Qed.

(** X10: an overwrite sweep over modules with pairwise distinct names, none of
    them in the patched set yet, leaves in every matched slot of every module
    that is not excluded the trampoline of a hook matched at that slot, and
    changes no other address. *)
Theorem overwrite_installs_trampolines loaded st :
  NoDup (map link.dlpi_name loaded) ->
  Forall (fun info => link.dlpi_name info ∉ elf.patched st) loaded ->
  let slots := flat_map (module_slots views) loaded in
  let st' := overwrite_symbols loaded st in
  (forall a, a ∉ slots.*1 -> elf.memory st' a = elf.memory st a)
  /\ (forall a, a ∈ slots.*1 ->
        exists hook, (a, hook) ∈ slots /\ elf.memory st' a = intercept hook).
Proof.
  intros Hnd Hfresh slots st'. subst st'.
  rewrite overwrite_symbols_fresh by done. split.
  - intros a Ha. by apply apply_patches_untouched.
  - intros a Ha. by apply (apply_patches_touched (patch_value false)).
Qed.

(** X11: a restore sweep starts a new epoch: the overwrite sweep that follows it
    patches every module again, whatever the patched set held before. *)
Theorem restore_then_overwrite_patches_again loaded st :
  loaded <> [] ->
  NoDup (map link.dlpi_name loaded) ->
  let slots := flat_map (module_slots views) loaded in
  let st' := overwrite_symbols loaded (restore_symbols loaded st) in
  elf.patched st' = list_to_set (map link.dlpi_name loaded)
  /\ (forall a, a ∈ slots.*1 ->
        exists hook, (a, hook) ∈ slots /\ elf.memory st' a = intercept hook).
Proof.
  intros Hne Hnd slots st'. subst st'.
  assert (Hempty : elf.patched (restore_symbols loaded st) = ∅)
    by (destruct loaded; [done | apply restore_symbols_patched]).
  split.
  - rewrite overwrite_symbols_patched, Hempty. set_solver.
  - intros a Ha. rewrite overwrite_symbols_fresh.
    + by apply (apply_patches_touched (patch_value false)).
    + done.
    + apply Forall_forall. intros info _. rewrite Hempty. set_solver.
Qed.

(** X12: how the sweeps move the patched set: an overwrite sweep adds the path of
    every enumerated module and removes nothing; a restore sweep empties the
    set as soon as one module is enumerated, and leaves it alone when none
    is. *)
Theorem sweeps_move_the_patched_set loaded st :
  elf.patched (overwrite_symbols loaded st)
  = list_to_set (map link.dlpi_name loaded) ∪ elf.patched st
  /\ elf.patched (restore_symbols loaded st)
     = match loaded with [] => elf.patched st | _ :: _ => ∅ end.
Proof.
  split; [apply overwrite_symbols_patched|].
  destruct loaded as [|info rest]; [done | apply restore_symbols_patched].
Qed.

(** X13: the identity of a module is its path: in an overwrite sweep a module
    that comes after one with the same path is skipped, and the sweep ends
    exactly as if it had not been enumerated. *)
Theorem later_module_with_the_same_path_is_skipped pre first mid second post st :
  link.dlpi_name second = link.dlpi_name first ->
  overwrite_symbols (pre ++ first :: mid ++ second :: post) st
  = overwrite_symbols (pre ++ first :: mid ++ post) st.
Proof.
  intros Hname.
  change (overwrite_symbols ?l ?s)
    with (link.dl_iterate_phdr (phdrs_callback false) l s).2.
  replace (pre ++ first :: mid ++ second :: post)
    with ((pre ++ first :: mid) ++ second :: post) by (by rewrite <- app_assoc).
  replace (pre ++ first :: mid ++ post)
    with ((pre ++ first :: mid) ++ post) by (by rewrite <- app_assoc).
  rewrite !sweep_app, sweep_cons.
  rewrite phdrs_callback_skip; [done|].
  change (link.dl_iterate_phdr (phdrs_callback false) ?l ?s).2
    with (overwrite_symbols l s).
  rewrite overwrite_symbols_patched, Hname.
  apply elem_of_union_l, elem_of_list_to_set.
  left.
Qed.

(** ** The stores and the permission requests of a sweep *)

Lemma stores_app es1 es2 : stores (es1 ++ es2) = stores es1 ++ stores es2.
Proof. apply filter_app. Qed.

Lemma stores_of_stores (value : hooks.SymbolHook -> Z) (slots : list (Z * hooks.SymbolHook)) :
  stores (map (fun slot => elf.store slot.1 (value slot.2)) slots)
  = map (fun slot => elf.store slot.1 (value slot.2)) slots.
Proof.
  induction slots as [|slot slots IH]; [done|].
  cbn [map]. unfold stores in *. rewrite filter_cons_True by done. by rewrite IH.
Qed.

Lemma extends_stores r slots st st' :
  extends r slots st st' ->
  stores (elf.effects st')
  = stores (elf.effects st)
    ++ map (fun slot => elf.store slot.1 (patch_value r slot.2)) slots.
Proof.
  intros (_ & _ & es & -> & Hf). rewrite stores_app. f_equal.
  rewrite <- (stores_of_stores (patch_value r)), <- Hf. unfold stores.
  symmetry. apply list_filter_filter_l. intros [] ?; done.
Qed.

Lemma scan_module_stores r info st :
  stores (elf.effects (scan_module r info st).2)
  = stores (elf.effects st)
    ++ map (fun slot => elf.store slot.1 (patch_value r slot.2)) (module_slots views info).
Proof.
  unfold elf.scan_module, module_slots.
  destruct (elf.is_excluded _); cbn [snd map]; [by rewrite app_nil_r|].
  rewrite (extends_stores _ _ _ _ (patch_phdrs_extends r _ _ _)).
  cbn [elf.perform elf.effects]. rewrite stores_app. cbn. by rewrite app_nil_r.
Qed.

(** X14: a sweep stores once for each matched relocation entry of each module it
    scans, in the order of the scan (modules in load order; in a module the
    tables with implicit addends, with explicit addends, of the linkage
    table), and stores nothing else: a restore sweep the captured originals
    into every module that is not excluded, an overwrite sweep the
    trampolines into the modules that it does not skip. *)
Theorem sweep_stores_once_per_matched_entry loaded st :
  stores (elf.effects (restore_symbols loaded st))
  = stores (elf.effects st)
    ++ map (fun slot => elf.store slot.1 (d_original slot.2))
         (flat_map (module_slots views) loaded)
  /\ stores (elf.effects (overwrite_symbols loaded st))
     = stores (elf.effects st)
       ++ map (fun slot => elf.store slot.1 (intercept slot.2))
            (flat_map (module_slots views) (overwrite_visits loaded (elf.patched st))).
Proof.
  split.
  - revert st. induction loaded as [|info rest IH]; intros st.
    + cbn. by rewrite app_nil_r.
    + rewrite restore_symbols_cons, IH. cbn [flat_map]. rewrite map_app, app_assoc.
      f_equal. unfold elf.phdrs_callback. by rewrite scan_module_stores.
  - revert st. induction loaded as [|info rest IH]; intros st.
    + cbn. by rewrite app_nil_r.
    + rewrite overwrite_symbols_cons, IH. cbn [overwrite_visits].
      case_bool_decide as Hin.
      * by rewrite phdrs_callback_skip.
      * destruct (phdrs_callback_overwrite info st Hin) as (_ & -> & _).
        cbn [flat_map]. rewrite map_app, app_assoc. f_equal.
        unfold elf.phdrs_callback. rewrite bool_decide_false by done.
        by rewrite scan_module_stores.
Qed.

Lemma request_then_store_app waiting es1 es2 :
  request_then_store page_len waiting (es1 ++ es2)
  = match request_then_store page_len waiting es1 with
    | Some waiting' => request_then_store page_len waiting' es2
    | None => None
    end.
Proof.
  revert waiting. induction es1 as [|e es1 IH]; intros waiting; [done|].
  destruct e as [memory_page len prot | level message | addr value];
    cbn [app request_then_store].
  - destruct waiting; [done | apply IH].
  - apply IH.
  - case_bool_decide; [apply IH | done].
Qed.

Lemma requests_match_stores_refl st : requests_match_stores page_len st st.
Proof. exists []. by rewrite app_nil_r. Qed.

Lemma requests_match_stores_trans st1 st2 st3 :
  requests_match_stores page_len st1 st2 ->
  requests_match_stores page_len st2 st3 ->
  requests_match_stores page_len st1 st3.
Proof.
  intros (es1 & He1 & H1 & Hr1) (es2 & He2 & H2 & Hr2). exists (es1 ++ es2).
  split; [|split].
  - by rewrite He2, He1, app_assoc.
  - unfold unprotected, stored_pages in *. by rewrite !omap_app, H1, H2.
  - by rewrite request_then_store_app, Hr1.
Qed.

Lemma requests_match_stores_LOG level message st :
  requests_match_stores page_len st (elf.perform (elf.LOG level message) st).
Proof. by exists [elf.LOG level message]. Qed.

Lemma patch_symbol_requests hook intercept_fn symname addr r st :
  requests_match_stores page_len st (patch_symbol hook intercept_fn symname addr r st).
Proof.
  unfold elf.patch_symbol, elf.unprotect_page.
  destruct (_ <? 0); eexists;
    (split; [cbn; rewrite <- ?app_assoc; reflexivity|]); (split; [done|]);
    cbn [request_then_store app]; by rewrite bool_decide_true.
Qed.

Lemma fold_left_requests {A} (f : elf.Process -> A -> elf.Process) (l : list A) :
  (forall st x, requests_match_stores page_len st (f st x)) ->
  forall st, requests_match_stores page_len st (fold_left f l st).
Proof.
  intros Hf. induction l as [|x l IH]; intros st; [apply requests_match_stores_refl|].
  cbn [fold_left]. eapply requests_match_stores_trans; [apply Hf | apply IH].
Qed.

Lemma overwrite_elf_table_requests table symbols base r st :
  requests_match_stores page_len st (overwrite_elf_table table symbols base r st).
Proof.
  apply fold_left_requests. intros s relocation. unfold elf.overwrite_relocation.
  destruct (elf.TRY_HOOK _);
    [apply patch_symbol_requests | apply requests_match_stores_refl].
Qed.

Lemma scan_module_requests r info st :
  requests_match_stores page_len st (scan_module r info st).2.
Proof.
  unfold elf.scan_module.
  destruct (elf.is_excluded _); cbn [snd]; [apply requests_match_stores_refl|].
  eapply requests_match_stores_trans; [apply requests_match_stores_LOG|].
  apply fold_left_requests. intros s phdr. unfold elf.patch_phdr.
  destruct (negb _); [apply requests_match_stores_refl|]. unfold elf.patch_symbols.
  repeat (eapply requests_match_stores_trans;
          [|first [apply overwrite_elf_table_requests
                  | apply requests_match_stores_LOG]]).
  apply requests_match_stores_refl.
Qed.

(** X15: a sweep never stores into a slot without first asking for its page to be
    made writable: the permission requests of a sweep are, in order, one for
    each store, for the page of the stored slot, of one page length, with
    read and write protection; and in the history of the sweep each store
    comes after its own request, before any other request or store. *)
Theorem sweep_unprotects_the_page_of_every_store r loaded st :
  exists es,
    elf.effects (sweep r loaded st) = elf.effects st ++ es
    /\ unprotected es = stored_pages page_len es
    /\ request_then_store page_len None es = Some None.
Proof.
  change (requests_match_stores page_len st (sweep r loaded st)).
  rewrite sweep_unfold. revert st.
  induction loaded as [|info rest IH]; intros st; [apply requests_match_stores_refl|].
  rewrite sweep_cons. eapply requests_match_stores_trans; [|apply IH].
  unfold elf.phdrs_callback. destruct r.
  - destruct (scan_module_requests true info (elf.set_patched ∅ st))
      as (es & He & Hes & Hr).
    by exists es.
  - case_bool_decide; [apply requests_match_stores_refl|].
    destruct (scan_module_requests false info
                (elf.set_patched ({[link.dlpi_name info]} ∪ elf.patched st) st))
      as (es & He & Hes & Hr).
    by exists es.
Qed.

(** X16: with a page length that is a power of two, the page [unprotect_page]
    asks to unprotect starts at a multiple of the page length and holds the
    address; the call returns what [mprotect] returns for that page. *)
Theorem unprotect_page_requests_the_page_of_the_address k addr st :
  0 <= k -> 0 <= addr -> page_len = 2 ^ k ->
  let memory_page := Z.land addr (Z.lnot (page_len - 1)) in
  memory_page mod page_len = 0
  /\ memory_page <= addr < memory_page + page_len
  /\ elf.unprotect_page page_len mprotect addr st
     = (mprotect memory_page page_len 3,
        elf.perform (elf.mprotect_call memory_page page_len 3) st).
Proof.
  intros Hk Haddr Hlen memory_page.
  assert (Hpage : memory_page = page_len * (addr / page_len)).
  { subst memory_page. rewrite Hlen.
    change (2 ^ k - 1) with (Z.pred (2 ^ k)). rewrite <- Z.ones_equiv.
    rewrite <- Z.ldiff_land, Z.ldiff_ones_r by done.
    rewrite Z.shiftl_mul_pow2, Z.shiftr_div_pow2 by done. lia. }
  assert (Hpos : 0 < page_len) by (subst page_len; by apply Z.pow_pos_nonneg).
  split; [|split; [|done]].
  - rewrite Hpage, Z.mul_comm. by apply Z.mod_mul, Z.neq_sym, Z.lt_neq.
  - rewrite Hpage. pose proof (Z.mod_pos_bound addr page_len Hpos).
    pose proof (Z.div_mod addr page_len ltac:(lia)). lia.
Qed.

End PatcherFacts.

(** * The symbol finder *)

Section SymbolFinderFacts.

Variable views : elf_utils.Views.

Local Abbreviation resolve := (resolve views).
Local Abbreviation first_match := (first_match views).

Lemma phdr_symfind_callback_unfold info q :
  hooks.phdr_symfind_callback views info q
  = if symfind_skips (hooks.maps_visited q) info
       || (resolve info (hooks.symbol_name q) =? 0)
    then (0, counted_map q)
    else (1, {| hooks.maps_visited := S (hooks.maps_visited q);
                hooks.symbol_name := hooks.symbol_name q;
                hooks.address := resolve info (hooks.symbol_name q) |}).
Proof.
  unfold hooks.phdr_symfind_callback, symfind_skips, resolve, counted_map.
  cbn [hooks.maps_visited hooks.symbol_name hooks.address].
  replace (bool_decide (link.dlpi_name info = ""))
    with (match link.dlpi_name info with EmptyString => true | _ => false end)
    by (by destruct (link.dlpi_name info)).
  destruct (negb _ && _); [done|]. cbn [orb].
  destruct (bool_decide _); [done|]. cbn [orb].
  by destruct (_ =? 0).
Qed.

Lemma dl_iterate_phdr_symfind loaded name position found :
  link.dl_iterate_phdr (hooks.phdr_symfind_callback views) loaded
    {| hooks.maps_visited := position; hooks.symbol_name := name; hooks.address := found |}
  = match first_match name position loaded with
    | Some (p, a) =>
        (1, {| hooks.maps_visited := S p; hooks.symbol_name := name; hooks.address := a |})
    | None =>
        (0, {| hooks.maps_visited := (position + length loaded)%nat;
               hooks.symbol_name := name; hooks.address := found |})
    end.
Proof.
  revert position. induction loaded as [|info rest IH]; intros position.
  - cbn. by rewrite Nat.add_0_r.
  - cbn [link.dl_iterate_phdr first_match].
    rewrite phdr_symfind_callback_unfold.
    cbn [hooks.maps_visited hooks.symbol_name hooks.address].
    rewrite <- negb_orb.
    destruct (symfind_skips position info || (resolve info name =? 0)); cbn [negb].
    + unfold counted_map. cbn [hooks.maps_visited hooks.symbol_name hooks.address Z.eqb].
      rewrite IH. cbn [length]. by rewrite Nat.add_succ_r.
    + done.
Qed.

Lemma first_match_Some name position loaded p a :
  first_match name position loaded = Some (p, a) ->
  (position <= p)%nat
  /\ exists info,
       loaded !! (p - position)%nat = Some info
       /\ symfind_skips p info = false
       /\ a = resolve info name /\ a <> 0
       /\ forall j info', (j < p - position)%nat -> loaded !! j = Some info' ->
            symfind_skips (position + j) info' = true \/ resolve info' name = 0.
Proof.
  revert position. induction loaded as [|info rest IH]; intros position; [done|].
  cbn [first_match].
  destruct (negb (symfind_skips position info) && negb (resolve info name =? 0)) eqn:Hm.
  - intros [= <- <-]. apply andb_prop in Hm as [Hs Hr].
    apply negb_true_iff in Hs. apply negb_true_iff, Z.eqb_neq in Hr.
    split; [lia|]. exists info. rewrite Nat.sub_diag.
    repeat split; try done. intros j info' Hj. lia.
  - intros Hf. destruct (IH _ Hf) as (Hle & info0 & Hl & Hs & Ha & Hnz & Hbefore).
    split; [lia|]. exists info0.
    replace (p - position)%nat with (S (p - S position)) by lia.
    repeat split; try done.
    intros [|j] info' Hj Hl'.
    + cbn in Hl'. injection Hl' as <-. rewrite Nat.add_0_r.
      apply andb_false_iff in Hm as [Hm|Hm].
      * left. by apply negb_false_iff.
      * right. by apply negb_false_iff, Z.eqb_eq in Hm.
    + cbn in Hl'. rewrite Nat.add_succ_r. apply (Hbefore j info'); [lia|done].
Qed.


(** The guard on an empty path tests the count of maps met so far: a module
    with an empty path is visited only as the first map of the enumeration,
    where the platform reports the main program. *)
Lemma empty_path_is_visited_only_as_first_map position info :
  link.dlpi_name info = "" -> symfind_skips position info = false -> position = 0%nat.
Proof.
  intros Hname Hs. unfold symfind_skips in Hs. rewrite Hname in Hs.
  destruct position; [done|]. cbn in Hs. discriminate.
Qed.






(** ** Further properties of the symbol finder *)

(** X17: within a module, the finder looks at the [PT_DYNAMIC] headers alone,
    first to last, and gives the address from the first of them whose symbol
    table resolves the name; it gives null when none does. *)
Theorem resolve_is_the_first_dynamic_segment_that_resolves dlpi_addr name phdrs :
  hooks.symfind_phdrs views dlpi_addr name phdrs
  = default 0
      (head
         (filter (fun offset => offset <> 0)
            (map (fun phdr =>
                    elf_utils.getSymbolAddress
                      (elf_utils.new_SymbolTable views dlpi_addr
                         ((link.p_vaddr phdr + dlpi_addr) mod word_modulus))
                      name)
               (filter (fun phdr => link.p_type phdr = link.PT_DYNAMIC) phdrs)))).
Proof.
  induction phdrs as [|phdr phdrs IH]; [done|].
  cbn [hooks.symfind_phdrs]. rewrite filter_cons.
  destruct (decide (link.p_type phdr = link.PT_DYNAMIC)) as [Hd|Hd].
  - rewrite (proj2 (Z.eqb_eq _ _) Hd). cbn [negb map]. rewrite filter_cons.
    destruct (decide (_ <> 0)) as [Hnz|Hz].
    + by rewrite (proj2 (Z.eqb_neq _ _) Hnz).
    + apply dec_stable in Hz. by rewrite Hz.
  - by rewrite (proj2 (Z.eqb_neq _ _) Hd).
Qed.

(** X18: the answer of the finder is consistent: it reports 1 with a non-null
    address or 0 with the null address, the name of the query is the name
    asked for, and the count of maps visited never exceeds the number of
    loaded modules. *)
Theorem findSymbol_answer_is_consistent loaded name :
  let answer := hooks.findSymbol views loaded name in
  (answer.1 = 1 /\ hooks.address answer.2 <> 0
   \/ answer.1 = 0 /\ hooks.address answer.2 = 0)
  /\ hooks.symbol_name answer.2 = name
  /\ (hooks.maps_visited answer.2 <= length loaded)%nat.
Proof.
  unfold hooks.findSymbol. rewrite dl_iterate_phdr_symfind.
  destruct (first_match name 0 loaded) as [[p a]|] eqn:Hf; cbn.
  - destruct (first_match_Some _ _ _ _ _ Hf) as (_ & info & Hl & _ & _ & Hnz & _).
    apply lookup_lt_Some in Hl. repeat split; [by left | lia].
  - repeat split; [by right | lia].
Qed.

(** X19: the module enumerated first is searched first whatever its path: when it
    is not the vdso and resolves the name, the finder answers with its
    address after one visit, and no later module is consulted. *)
Theorem first_map_is_searched_first main rest name :
  strstr (link.dlpi_name main) "linux-vdso.so.1" = None ->
  resolve main name <> 0 ->
  hooks.findSymbol views (main :: rest) name
  = (1, {| hooks.maps_visited := 1;
           hooks.symbol_name := name;
           hooks.address := resolve main name |}).
Proof.
  intros Hv Hr. unfold hooks.findSymbol. rewrite dl_iterate_phdr_symfind.
  cbn [first_match]. unfold symfind_skips. cbn [Nat.eqb negb andb orb].
  rewrite Hv. rewrite bool_decide_false by (by intros [? ?]).
  by rewrite (proj2 (Z.eqb_neq _ _) Hr).
Qed.

Lemma symfind_skips_later p p' info :
  (0 < p)%nat -> (0 < p')%nat -> symfind_skips p info = symfind_skips p' info.
Proof. intros Hp Hp'. destruct p, p'; try lia. done. Qed.

Lemma first_match_later name p p' loaded :
  (0 < p)%nat -> (0 < p')%nat ->
  snd <$> first_match name p loaded = snd <$> first_match name p' loaded.
Proof.
  revert p p'. induction loaded as [|info rest IH]; intros p p' Hp Hp'; [done|].
  cbn [first_match]. rewrite (symfind_skips_later p p') by done.
  destruct (negb _ && negb _); [done|]. apply IH; lia.
Qed.

Lemma first_match_app name p l1 l2 :
  first_match name p (l1 ++ l2)
  = match first_match name p l1 with
    | Some hit => Some hit
    | None => first_match name (p + length l1) l2
    end.
Proof.
  revert p. induction l1 as [|info l1 IH]; intros p.
  - cbn. by rewrite Nat.add_0_r.
  - cbn [app first_match length]. destruct (negb _ && negb _); [done|].
    rewrite IH. by rewrite Nat.add_succ_r.
Qed.

(** X20: a module that the finder passes over (one with an empty path, or the
    vdso, enumerated after at least one other module) has no part in the
    answer: the search returns the same code and the same address as over the
    enumeration without that module. *)
Theorem findSymbol_ignores_a_skipped_module pre info post name :
  pre <> [] ->
  link.dlpi_name info = "" \/ is_Some (strstr (link.dlpi_name info) "linux-vdso.so.1") ->
  let found := hooks.findSymbol views (pre ++ info :: post) name in
  let found' := hooks.findSymbol views (pre ++ post) name in
  found.1 = found'.1 /\ hooks.address found.2 = hooks.address found'.2.
Proof.
  intros Hpre Hinfo found found'. subst found found'. unfold hooks.findSymbol.
  rewrite !dl_iterate_phdr_symfind, !first_match_app.
  destruct (first_match name 0 pre) as [[p a]|]; [done|].
  assert (Hlen : (0 < length pre)%nat) by (destruct pre; [done | cbn; lia]).
  assert (Hskip : symfind_skips (length pre) info = true).
  { unfold symfind_skips. destruct Hinfo as [Hname|Hvdso].
    - rewrite (bool_decide_true (_ = "")) by done.
      destruct (length pre); [lia | done].
    - rewrite (bool_decide_true (is_Some _)) by done. apply orb_true_r. }
  cbn [Nat.add first_match]. rewrite Hskip. cbn [negb andb].
  pose proof (first_match_later name (S (length pre)) (length pre) post
                ltac:(lia) Hlen) as Heq.
  destruct (first_match name (S (length pre)) post) as [[p a]|],
           (first_match name (length pre) post) as [[p' a']|];
    cbn in Heq; try done.
  injection Heq as ->. done.
Qed.

End SymbolFinderFacts.

(** X21: a module with no [PT_DYNAMIC] header is inert: the finder resolves no
    name in it, and a sweep that scans it logs the scan and does nothing
    else. *)
Theorem module_without_dynamic_segment_is_inert page_len mprotect d_original intercept
    views info :
  Forall (fun phdr => link.p_type phdr <> link.PT_DYNAMIC) (link.dlpi_phdr info) ->
  (forall name, resolve views info name = 0)
  /\ (forall r st,
        elf.is_excluded (link.dlpi_name info) = false ->
        elf.scan_module page_len mprotect d_original intercept views r info st
        = (0, elf.perform
                (elf.LOG elf.INFO ("Patching symbols for " +:+ link.dlpi_name info)) st)).
Proof.
  intros Hnone. split.
  - intros name. unfold resolve. induction Hnone as [|phdr phdrs Hd _ IH]; [done|].
    cbn [hooks.symfind_phdrs]. by rewrite (proj2 (Z.eqb_neq _ _) Hd).
  - intros r st Hex. unfold elf.scan_module. rewrite Hex. f_equal.
    generalize (elf.perform
                  (elf.LOG elf.INFO ("Patching symbols for " +:+ link.dlpi_name info)) st).
    induction Hnone as [|phdr phdrs Hd _ IH]; intros st'; [done|].
    cbn [fold_left]. unfold elf.patch_phdr at 2.
    rewrite (proj2 (Z.eqb_neq _ _) Hd). apply IH.
Qed.

(** * The concrete process, run *)

(** C2 as stated fails: after an overwrite sweep and a restore sweep, the
    slot of [malloc] in [libfoo] holds the captured original pointer, which
    is not the value the slot had before patching. *)
Lemma round_trip_is_not_bit_identical :
  let before := epoch_start lazy_memory in
  let after := example_restore [libfoo] (example_overwrite [libfoo] before) in
  module_slots example_views libfoo = [(0x404018, hooks.malloc)]
  /\ elf.memory (example_overwrite [libfoo] before) 0x404018 = example_intercept hooks.malloc
  /\ elf.memory before 0x404018 = 0x401036
  /\ elf.memory after 0x404018 = 0x7ffff7e5e0e0
  /\ elf.memory after 0x404018 <> elf.memory before 0x404018.
Proof. vm_compute. repeat split; congruence. Qed.

Lemma overwrite_then_restore_writes_originals_witness :
  [libfoo; ld_linux] <> []
  /\ elf.patched
       (example_restore [libfoo; ld_linux]
          (example_overwrite [libfoo; ld_linux] (epoch_start lazy_memory))) = ∅.
Proof.
  split; [discriminate|].
  apply (overwrite_then_restore_writes_originals 4096 example_mprotect
           example_d_original example_intercept example_views
           [libfoo; ld_linux] (epoch_start lazy_memory)).
  discriminate.
Defined.

Lemma excluded_module_is_never_scanned_witness :
  elf.is_excluded (link.dlpi_name ld_linux) = true
  /\ elf.effects
       (elf.phdrs_callback 4096 example_mprotect example_d_original example_intercept
          example_views false ld_linux
          (example_overwrite [libfoo] (epoch_start lazy_memory))).2
     = elf.effects (example_overwrite [libfoo] (epoch_start lazy_memory)).
Proof.
  split; [vm_compute; reflexivity|].
  apply (excluded_module_is_never_scanned 4096 example_mprotect example_d_original
           example_intercept example_views false [libfoo] ld_linux []
           (epoch_start lazy_memory)).
  vm_compute; reflexivity.
Defined.

Lemma overwrite_marks_excluded_modules_patched_witness :
  ld_linux ∈ [libfoo; ld_linux]
  /\ link.dlpi_name ld_linux
     ∈ elf.patched (example_overwrite [libfoo; ld_linux] (epoch_start lazy_memory)).
Proof.
  split; [right; left|].
  apply (overwrite_marks_excluded_modules_patched 4096 example_mprotect
           example_d_original example_intercept example_views
           [libfoo; ld_linux] ld_linux (epoch_start lazy_memory)).
  right; left.
Defined.

(** The running example, evaluated: one sweep scans [libfoo] once and the
    linker never; a second sweep adds nothing. *)
Example example_patch_counts :
  let once := example_overwrite [libfoo; ld_linux] (epoch_start lazy_memory) in
  let twice := example_overwrite [libfoo; ld_linux] once in
  patch_count "/usr/lib/libfoo.so" (elf.effects twice) = 1%nat
  /\ patch_count "/lib64/ld-linux-x86-64.so.2" (elf.effects twice) = 0%nat
  /\ elf.effects twice = elf.effects once
  /\ filter (fun e => silent e = false) (elf.effects once)
     = [elf.LOG elf.INFO "Patching symbols for /usr/lib/libfoo.so";
        elf.store 0x404018 0x7ffff7a01000].
Proof. vm_compute. repeat split. Qed.

(** The finder on the running example: the main program and a second map
    with an empty path come first, then the vdso, then [libfoo]. *)
Example example_findSymbol :
  let main := {| link.dlpi_addr := 0x555555554000; link.dlpi_name := "";
                 link.dlpi_phdr := [] |} in
  let vdso := {| link.dlpi_addr := 0x7ffff7fc1000; link.dlpi_name := "linux-vdso.so.1";
                 link.dlpi_phdr := link.dlpi_phdr libfoo |} in
  hooks.findSymbol example_views [main; main; vdso; libfoo; ld_linux] "malloc"
  = (1, {| hooks.maps_visited := 4; hooks.symbol_name := "malloc";
           hooks.address := 0x401100 |})
  /\ hooks.findSymbol example_views [main; main; vdso; libfoo; ld_linux] "free"
     = (0, {| hooks.maps_visited := 5; hooks.symbol_name := "free"; hooks.address := 0 |}).
Proof. vm_compute. split; reflexivity. Qed.

(** The reading of a history tells the order: a store that comes before its
    request breaks the rule, the same two effects in the order of
    [patch_symbol] keep it. *)
Example request_then_store_tells_the_order :
  request_then_store 4096 None
    [elf.store 0x404018 0x7ffff7a01000; elf.mprotect_call 0x404000 4096 3] = None
  /\ request_then_store 4096 None
       [elf.mprotect_call 0x404000 4096 3; elf.store 0x404018 0x7ffff7a01000] = Some None.
Proof. vm_compute. split; reflexivity. Qed.


(** ** Instances of the further properties *)

Lemma overwrite_installs_trampolines_witness :
  NoDup (map link.dlpi_name [libfoo; ld_linux])
  /\ Forall (fun info => link.dlpi_name info ∉ elf.patched (epoch_start lazy_memory))
       [libfoo; ld_linux]
  /\ exists hook,
       (0x404018, hook) ∈ flat_map (module_slots example_views) [libfoo; ld_linux]
       /\ elf.memory (example_overwrite [libfoo; ld_linux] (epoch_start lazy_memory)) 0x404018
          = example_intercept hook.
Proof.
  assert (Hnd : NoDup (map link.dlpi_name [libfoo; ld_linux]))
    by (refine (bool_decide_unpack _ _); vm_compute; exact I).
  assert (Hfresh : Forall (fun info => link.dlpi_name info
                                       ∉ elf.patched (epoch_start lazy_memory))
                     [libfoo; ld_linux])
    by (refine (bool_decide_unpack _ _); vm_compute; exact I).
  split; [exact Hnd|]. split; [exact Hfresh|].
  apply (overwrite_installs_trampolines 4096 example_mprotect example_d_original
           example_intercept example_views [libfoo; ld_linux]
           (epoch_start lazy_memory) Hnd Hfresh).
  vm_compute. left.
Defined.

Lemma restore_then_overwrite_patches_again_witness :
  [libfoo; ld_linux] <> []
  /\ NoDup (map link.dlpi_name [libfoo; ld_linux])
  /\ elf.patched
       (example_overwrite [libfoo; ld_linux]
          (example_restore [libfoo; ld_linux] (epoch_start lazy_memory)))
     = list_to_set (map link.dlpi_name [libfoo; ld_linux]).
Proof.
  assert (Hnd : NoDup (map link.dlpi_name [libfoo; ld_linux]))
    by (refine (bool_decide_unpack _ _); vm_compute; exact I).
  split; [discriminate|]. split; [exact Hnd|].
  apply (restore_then_overwrite_patches_again 4096 example_mprotect example_d_original
           example_intercept example_views [libfoo; ld_linux]
           (epoch_start lazy_memory)); [discriminate | exact Hnd].
Defined.

Lemma later_module_with_the_same_path_is_skipped_witness :
  link.dlpi_name main_program = link.dlpi_name main_program
  /\ example_overwrite ([] ++ main_program :: [libfoo] ++ main_program :: [ld_linux])
       (epoch_start lazy_memory)
     = example_overwrite ([] ++ main_program :: [libfoo] ++ [ld_linux])
         (epoch_start lazy_memory).
Proof.
  split; [reflexivity|].
  apply (later_module_with_the_same_path_is_skipped 4096 example_mprotect
           example_d_original example_intercept example_views
           [] main_program [libfoo] main_program [ld_linux] (epoch_start lazy_memory)).
  reflexivity.
Defined.

Lemma unprotect_page_requests_the_page_of_the_address_witness :
  0 <= 12 /\ 0 <= 0x404018 /\ 4096 = 2 ^ 12
  /\ Z.land 0x404018 (Z.lnot (4096 - 1)) <= 0x404018
     < Z.land 0x404018 (Z.lnot (4096 - 1)) + 4096.
Proof.
  split; [lia|]. split; [lia|]. split; [reflexivity|].
  apply (unprotect_page_requests_the_page_of_the_address 4096 example_mprotect
           12 0x404018 (epoch_start lazy_memory)); [lia | lia | reflexivity].
Defined.

Lemma first_map_is_searched_first_witness :
  strstr (link.dlpi_name main_program) "linux-vdso.so.1" = None
  /\ resolve example_views main_program "malloc" <> 0
  /\ hooks.findSymbol example_views (main_program :: [libfoo; ld_linux]) "malloc"
     = (1, {| hooks.maps_visited := 1;
              hooks.symbol_name := "malloc";
              hooks.address := resolve example_views main_program "malloc" |}).
Proof.
  split; [reflexivity|]. split; [vm_compute; discriminate|].
  apply (first_map_is_searched_first example_views main_program [libfoo; ld_linux]
           "malloc"); [reflexivity | vm_compute; discriminate].
Defined.

Lemma module_without_dynamic_segment_is_inert_witness :
  Forall (fun phdr => link.p_type phdr <> link.PT_DYNAMIC) (link.dlpi_phdr static_blob)
  /\ forall name, resolve example_views static_blob name = 0.
Proof.
  assert (Hnone : Forall (fun phdr => link.p_type phdr <> link.PT_DYNAMIC)
                    (link.dlpi_phdr static_blob))
    by (repeat constructor; vm_compute; discriminate).
  split; [exact Hnone|].
  apply (module_without_dynamic_segment_is_inert 4096 example_mprotect
           example_d_original example_intercept example_views static_blob Hnone).
Defined.

Lemma findSymbol_ignores_a_skipped_module_witness :
  [static_blob] <> []
  /\ (link.dlpi_name main_program = ""
      \/ is_Some (strstr (link.dlpi_name main_program) "linux-vdso.so.1"))
  /\ (hooks.findSymbol example_views ([static_blob] ++ main_program :: [libfoo]) "malloc").1
     = (hooks.findSymbol example_views ([static_blob] ++ [libfoo]) "malloc").1.
Proof.
  split; [discriminate|]. split; [left; reflexivity|].
  apply (findSymbol_ignores_a_skipped_module example_views [static_blob] main_program
           [libfoo] "malloc"); [discriminate | left; reflexivity].
Defined.
